(** * visor/readable.go: the readable ledger view layer

    A shallow embedding of the conversions of [src/visor/readable.go] and of
    the output-set reconciliation built on them, followed by the properties
    the specification states about them.

    Conventions.
    - [uint64], [uint32], [uint8] are [N]; the only arithmetic the file does
      on them is the overflow-checked addition [coin.AddUint64].
    - A Go function returning [(v, error)] returns a [result]; the zero value
      Go hands back next to a non-nil error is not represented.
    - A Go function that may panic returns an [outcome].
    - The collaborators of other packages (amount codec, address and hash
      codecs, content hashes, coin-hour accrual, [sort.Slice]) are the
      fields of the class [Collaborators]; logging calls return nothing and
      are left out. *)

From Stdlib Require Import NArith List String Ascii Bool Lia.
From Stdlib Require Import Sorting.Sorted Sorting.Permutation.
From Stdlib Require Import Strings.Byte Decimal DecimalString.
From stdpp Require Import base gmap sets list strings sorting.

Local Open Scope N_scope.

(** ** Machine integers *)

Definition uint64 := N.
Definition uint32 := N.
Definition uint8 := N.

Definition MaxUint64 : N := 18446744073709551615.
Definition MaxInt64 : N := 9223372036854775807.

(** ** Errors and results *)

(** Go compares error values by identity; the two sentinels the file tests or
    produces are constructors of their own, every other error is carried by
    its message. *)
Inductive error : Type :=
| ErrAddEarnedCoinHoursAdditionOverflow
| ErrUint64AddOverflow
| errors_New (msg : string).

Global Instance error_eq_dec : EqDecision error.
Proof. solve_decision. Defined.

Inductive result (A : Type) : Type :=
| Ok (a : A)
| Err (e : error).
Arguments Ok {A} a.
Arguments Err {A} e.

Global Instance result_ret : MRet result := fun _ a => Ok a.
Global Instance result_bind : MBind result := fun _ _ f m =>
  match m with
  | Ok a => f a
  | Err e => Err e
  end.

Definition is_Ok {A} (r : result A) : Prop :=
  match r with Ok _ => True | Err _ => False end.
Definition is_Err {A} (r : result A) : Prop :=
  match r with Ok _ => False | Err _ => True end.

(** The outcome of a call that may abort the program. *)
Inductive outcome (A : Type) : Type :=
| Returned (a : A)
| Panicked (msg : string).
Arguments Returned {A} a.
Arguments Panicked {A} msg.

(** ** Package cipher: value types *)

Module cipher.
(** [SHA256] is [[32]byte]. *)
Definition SHA256 := list byte.
(** [cipher.SHA256{}], the zero value. *)
Definition SHA256_zero : SHA256 := replicate 32 x00.
(** [Sig] is [[65]byte]. *)
Definition Sig := list byte.
Module Address.
Record t := mk { Version : byte; Key : list byte }.
End Address.
End cipher.

(** ** Package coin: value types and checked addition *)

Module coin.
Module UxHead.
Record t := mk { Time : uint64; BkSeq : uint64 }.
End UxHead.
Module UxBody.
Record t := mk {
    SrcTransaction : cipher.SHA256;
    Address : cipher.Address.t;
    Coins : uint64;
    Hours : uint64 }.
End UxBody.
Module UxOut.
Record t := mk { Head : UxHead.t; Body : UxBody.t }.
End UxOut.
Abbreviation UxArray := (list UxOut.t).

Module TransactionOutput.
Record t := mk {
    Address : cipher.Address.t;
    Coins : uint64;
    Hours : uint64 }.
End TransactionOutput.

Module Transaction.
Record t := mk {
    Length : uint32;
    Type_ : uint8;
    InnerHash : cipher.SHA256;
    Sigs : list cipher.Sig;
    In : list cipher.SHA256;
    Out : list TransactionOutput.t }.
End Transaction.

(** Modelled from the spec: [coin.AddUint64] is not under src/. The spec
    asks that summation "detect and fail on 64-bit addition overflow
    rather than wrapping": the sum is returned when it fits 64 bits, an
    error otherwise. *)
Definition AddUint64 (a b : uint64) : result uint64 :=
  if a + b <=? MaxUint64 then Ok (a + b) else Err ErrUint64AddOverflow.
End coin.

(** ** Package wallet *)

Module wallet.
Module Balance.
Record t := mk { Coins : uint64; Hours : uint64 }.
End Balance.
End wallet.

(** ** Package visor: the readable types *)

Module TransactionStatus.
Record t := mk {
    Confirmed : bool;
    Unconfirmed : bool;
    Height : uint64;
    BlockSeq : uint64 }.
End TransactionStatus.

Module Transaction.
Record t := mk {
    Txn : coin.Transaction.t;
    Status : TransactionStatus.t;
    Time : uint64 }.
End Transaction.

Module ReadableTransactionOutput.
Record t := mk {
    Hash : string;
    Address : string;
    Coins : string;
    Hours : uint64 }.
End ReadableTransactionOutput.

Module ReadableTransactionInput.
Record t := mk {
    Hash : string;
    Address : string;
    Coins : string;
    Hours : uint64;
    CalculatedHours : uint64 }.
End ReadableTransactionInput.

Module ReadableOutput.
Record t := mk {
    Hash : string;
    Time : uint64;
    BkSeq : uint64;
    SourceTransaction : string;
    Address : string;
    Coins : string;
    Hours : uint64;
    CalculatedHours : uint64 }.
(** The zero value, as [make] fills a fresh slice with. *)
Definition zero : t := mk "" 0 0 "" "" "" 0 0.
End ReadableOutput.

(** [type ReadableOutputs []ReadableOutput] *)
Abbreviation ReadableOutputs := (list ReadableOutput.t).

Module ReadableOutputSet.
Record t := mk {
    HeadOutputs : ReadableOutputs;
    OutgoingOutputs : ReadableOutputs;
    IncomingOutputs : ReadableOutputs }.
End ReadableOutputSet.

Module ReadableTransaction.
Record t := mk {
    Timestamp : uint64;
    Length : uint32;
    Type_ : uint8;
    Hash : string;
    InnerHash : string;
    Sigs : list string;
    In : list string;
    Out : list ReadableTransactionOutput.t }.
End ReadableTransaction.

(** ** Transaction status *)

Definition NewUnconfirmedTransactionStatus : TransactionStatus.t :=
  {| TransactionStatus.Unconfirmed := true;
     TransactionStatus.Confirmed := false;
     TransactionStatus.Height := 0;
     TransactionStatus.BlockSeq := 0 |}.

(** Modelled from the spec: [logger.Panic] is not under src/. The spec says
    the zero-height case "must abort the program (not return an error
    value)": the call logs its message and panics with it. *)
Definition logger_Panic {A} (msg : string) : outcome A := Panicked msg.

Definition NewConfirmedTransactionStatus (height blockSeq : uint64)
  : outcome TransactionStatus.t :=
  if height =? 0 then logger_Panic "Invalid confirmed transaction height"
  else Returned
    {| TransactionStatus.Unconfirmed := false;
       TransactionStatus.Confirmed := true;
       TransactionStatus.Height := height;
       TransactionStatus.BlockSeq := blockSeq |}.

(** ** Output set reconciliation *)

(** [spending[u.Hash] = struct{}{}] for every outgoing output. *)
Definition spending_set (outgoing : ReadableOutputs) : gset string :=
  foldl (fun spending u => {[ ReadableOutput.Hash u ]} ∪ spending) ∅ outgoing.

Definition SpendableOutputs (os : ReadableOutputSet.t) : ReadableOutputs :=
  if (length (ReadableOutputSet.OutgoingOutputs os) =? 0)%nat
  then ReadableOutputSet.HeadOutputs os
  else
    let spending := spending_set (ReadableOutputSet.OutgoingOutputs os) in
    foldl (fun outs o =>
             if decide (ReadableOutput.Hash o ∈ spending) then outs
             else outs ++ [o])
          [] (ReadableOutputSet.HeadOutputs os).

Definition ExpectedOutputs (os : ReadableOutputSet.t) : ReadableOutputs :=
  SpendableOutputs os ++ ReadableOutputSet.IncomingOutputs os.

(** The comparator handed to [sort.Slice]: newest first, the hash breaks
    ties. [strings.Compare] is the byte-wise lexicographic comparison. *)
Definition strings_Compare (a b : string) : comparison := String.compare a b.

Definition output_less (a b : ReadableOutput.t) : bool :=
  if ReadableOutput.Time a =? ReadableOutput.Time b
  then match strings_Compare (ReadableOutput.Hash a) (ReadableOutput.Hash b) with
       | Lt => true
       | _ => false
       end
  else ReadableOutput.Time b <? ReadableOutput.Time a.

(** What [sort.Slice] asks of its [less]: a strict weak order. *)
Record StrictWeakOrder {A} (less : A → A → bool) : Prop := {
  swo_irrefl : ∀ a, less a a = false;
  swo_trans : ∀ a b c, less a b = true → less b c = true → less a c = true;
  swo_incomp : ∀ a b c,
    less a b = false → less b a = false →
    less b c = false → less c b = false →
    less a c = false ∧ less c a = false }.

(** ** The vocabulary of the statements *)

(** Newest first; at equal times the smaller hash first. *)
Definition newest_first (a b : ReadableOutput.t) : Prop :=
  ReadableOutput.Time b < ReadableOutput.Time a
  ∨ (ReadableOutput.Time a = ReadableOutput.Time b
     ∧ strings_Compare (ReadableOutput.Hash a) (ReadableOutput.Hash b) ≠ Gt).

(** What the order looks at. *)
Definition output_key (o : ReadableOutput.t) : uint64 * string :=
  (ReadableOutput.Time o, ReadableOutput.Hash o).

Definition key_order (k1 k2 : uint64 * string) : Prop :=
  k2.1 < k1.1 ∨ (k1.1 = k2.1 ∧ strings_Compare k1.2 k2.2 ≠ Gt).

(** The exact sum of 64-bit quantities, outside 64 bits. *)
Definition N_sum (l : list N) : N := foldr N.add 0 l.

(** ** Loops over a destination slice

    [dst := make([]B, len(xs)); for i := range xs { dst[i] = ... }], with
    and without an early return on error. *)

Fixpoint assign_each {A B} (f : A → B) (i : nat) (xs : list A) (dst : list B)
  : list B :=
  match xs with
  | [] => dst
  | x :: rest => assign_each f (S i) rest (<[i := f x]> dst)
  end.

Fixpoint fill_each {A B} (f : A → result B) (i : nat) (xs : list A)
  (dst : list B) : result (list B) :=
  match xs with
  | [] => Ok dst
  | x :: rest =>
      match f x with
      | Err e => Err e
      | Ok y => fill_each f (S i) rest (<[i := y]> dst)
      end
  end.

(** The same conversions without the destination slice: every element in
    turn, the first error wins. *)
Fixpoint traverse {A B} (f : A → result B) (xs : list A) : result (list B) :=
  match xs with
  | [] => Ok []
  | x :: rest =>
      match f x with
      | Err e => Err e
      | Ok y =>
          match traverse f rest with
          | Err e => Err e
          | Ok ys => Ok (y :: ys)
          end
      end
  end.

(** ** The collaborators of the other packages *)

Class Collaborators := {
  (** package droplet: the amount codec *)
  droplet_ToString : uint64 → result string;
  droplet_FromString : string → result uint64;
  (** package cipher: hash, signature and address codecs *)
  SHA256_Hex : cipher.SHA256 → string;
  SHA256FromHex : string → result cipher.SHA256;
  Sig_Hex : cipher.Sig → string;
  Address_String : cipher.Address.t → string;
  DecodeBase58Address : string → result cipher.Address.t;
  (** package coin: content hashes and coin-hour accrual *)
  UxOut_Hash : coin.UxOut.t → cipher.SHA256;
  UxOut_CoinHours : coin.UxOut.t → uint64 → result uint64;
  Transaction_Hash : coin.Transaction.t → cipher.SHA256;
  TransactionOutput_UxID :
    coin.TransactionOutput.t → cipher.SHA256 → cipher.SHA256;
  (** package sort of the Go library *)
  sort_Slice :
    (ReadableOutput.t → ReadableOutput.t → bool) →
    ReadableOutputs → ReadableOutputs }.

(** What the Go library promises of [sort.Slice]: the slice is permuted, and
    under a strict weak order no later element is less than an earlier one.
    The sort need not be stable. *)
Record SortContract (sort : (ReadableOutput.t → ReadableOutput.t → bool) →
                           ReadableOutputs → ReadableOutputs) : Prop := {
  sort_permutes : ∀ less l, Permutation l (sort less l);
  sort_orders : ∀ less l, StrictWeakOrder less →
    StronglySorted (fun a b => less b a = false) (sort less l) }.

Section Visor.
Context `{Collaborators}.

  (** Modelled from the spec: [coin.Transaction.TxIDHex] is not under src/.
      The spec says "a transaction's id is the content hash of its binary
      form"; [TxIDHex] is that id as a hex string. It is a method of the
      bare [coin.Transaction] and sees no status. *)
Definition Transaction_TxIDHex (txn : coin.Transaction.t) : string :=
    SHA256_Hex (Transaction_Hash txn).

Definition NewReadableTransactionOutput (t : coin.TransactionOutput.t)
    (txid : cipher.SHA256) : result ReadableTransactionOutput.t :=
    coinStr ← droplet_ToString (coin.TransactionOutput.Coins t);
    Ok {| ReadableTransactionOutput.Hash :=
            SHA256_Hex (TransactionOutput_UxID t txid);
          ReadableTransactionOutput.Address :=
            Address_String (coin.TransactionOutput.Address t);
          ReadableTransactionOutput.Coins := coinStr;
          ReadableTransactionOutput.Hours := coin.TransactionOutput.Hours t |}.

Definition NewReadableTransactionInput (ux : coin.UxOut.t)
    (calculateHoursTime : uint64) : result ReadableTransactionInput.t :=
    coinVal ← droplet_ToString (coin.UxBody.Coins (coin.UxOut.Body ux));
    let calculatedHours :=
      match UxOut_CoinHours ux calculateHoursTime with
      | Ok hours => hours
      | Err _ => 0
      end in
    Ok {| ReadableTransactionInput.Hash := SHA256_Hex (UxOut_Hash ux);
          ReadableTransactionInput.Address :=
            Address_String (coin.UxBody.Address (coin.UxOut.Body ux));
          ReadableTransactionInput.Coins := coinVal;
          ReadableTransactionInput.Hours :=
            coin.UxBody.Hours (coin.UxOut.Body ux);
          ReadableTransactionInput.CalculatedHours := calculatedHours |}.

  (** [Balance]: the loop body, threaded through the running balance. *)
Fixpoint Balance_from (bal : wallet.Balance.t) (ros : ReadableOutputs)
    : result wallet.Balance.t :=
    match ros with
    | [] => Ok bal
    | out :: rest =>
        coins ← droplet_FromString (ReadableOutput.Coins out);
        balCoins ← coin.AddUint64 (wallet.Balance.Coins bal) coins;
        balHours ← coin.AddUint64 (wallet.Balance.Hours bal)
                                  (ReadableOutput.CalculatedHours out);
        Balance_from {| wallet.Balance.Coins := balCoins;
                        wallet.Balance.Hours := balHours |} rest
    end.

Definition Balance (ros : ReadableOutputs) : result wallet.Balance.t :=
    Balance_from {| wallet.Balance.Coins := 0; wallet.Balance.Hours := 0 |} ros.

  (** [ToUxArray]: the loop body, threaded through the slice built so far. *)
Fixpoint ToUxArray_from (uxs : coin.UxArray) (ros : ReadableOutputs)
    : result coin.UxArray :=
    match ros with
    | [] => Ok uxs
    | o :: rest =>
        coins ← droplet_FromString (ReadableOutput.Coins o);
        addr ← DecodeBase58Address (ReadableOutput.Address o);
        srcTx ← SHA256FromHex (ReadableOutput.SourceTransaction o);
        ToUxArray_from
          (uxs ++ [ {| coin.UxOut.Head :=
                         {| coin.UxHead.Time := ReadableOutput.Time o;
                            coin.UxHead.BkSeq := ReadableOutput.BkSeq o |};
                       coin.UxOut.Body :=
                         {| coin.UxBody.SrcTransaction := srcTx;
                            coin.UxBody.Address := addr;
                            coin.UxBody.Coins := coins;
                            coin.UxBody.Hours := ReadableOutput.Hours o |} |} ])
          rest
    end.

Definition ToUxArray (ros : ReadableOutputs) : result coin.UxArray :=
    ToUxArray_from [] ros.

Definition NewReadableOutput (headTime : uint64) (t : coin.UxOut.t)
    : result ReadableOutput.t :=
    coinStr ← droplet_ToString (coin.UxBody.Coins (coin.UxOut.Body t));
    calculatedHours ←
      match UxOut_CoinHours t headTime with
      | Ok hours => Ok hours
      | Err e =>
          if decide (e = ErrAddEarnedCoinHoursAdditionOverflow) then Ok 0
          else Err e
      end;
    Ok {| ReadableOutput.Hash := SHA256_Hex (UxOut_Hash t);
          ReadableOutput.Time := coin.UxHead.Time (coin.UxOut.Head t);
          ReadableOutput.BkSeq := coin.UxHead.BkSeq (coin.UxOut.Head t);
          ReadableOutput.SourceTransaction :=
            SHA256_Hex (coin.UxBody.SrcTransaction (coin.UxOut.Body t));
          ReadableOutput.Address :=
            Address_String (coin.UxBody.Address (coin.UxOut.Body t));
          ReadableOutput.Coins := coinStr;
          ReadableOutput.Hours := coin.UxBody.Hours (coin.UxOut.Body t);
          ReadableOutput.CalculatedHours := calculatedHours |}.

Definition NewReadableOutputs (headTime : uint64) (uxs : coin.UxArray)
    : result ReadableOutputs :=
    rxReadables ← fill_each (NewReadableOutput headTime) 0 uxs
                    (replicate (length uxs) ReadableOutput.zero);
    Ok (sort_Slice output_less rxReadables).

(** [txid := cipher.SHA256{}; if BlockSeq != 0 || !Confirmed { txid =
    t.Txn.Hash() }]: the all-zero hash for a confirmed transaction of block
    0, the content hash otherwise. *)
Definition output_txid (t : Transaction.t) : cipher.SHA256 :=
  if negb (TransactionStatus.BlockSeq (Transaction.Status t) =? 0)
     || negb (TransactionStatus.Confirmed (Transaction.Status t))
  then Transaction_Hash (Transaction.Txn t)
  else cipher.SHA256_zero.

Definition NewReadableTransaction (t : Transaction.t)
    : result ReadableTransaction.t :=
    let status := Transaction.Status t in
    let txn := Transaction.Txn t in
    if negb (TransactionStatus.BlockSeq status =? 0)
       && TransactionStatus.Confirmed status
       && (length (coin.Transaction.In txn) =? 0)%nat
    then Err (errors_New
      "NewReadableTransaction: Confirmed transaction Status.BlockSeq != 0 but Txn.In is empty")
    else
      let txid := output_txid t in
      let sigs := assign_each Sig_Hex 0 (coin.Transaction.Sigs txn)
                    (replicate (length (coin.Transaction.Sigs txn)) "") in
      let in_ := assign_each SHA256_Hex 0 (coin.Transaction.In txn)
                   (replicate (length (coin.Transaction.In txn)) "") in
      out ← fill_each (fun o => NewReadableTransactionOutput o txid) 0
              (coin.Transaction.Out txn)
              (replicate (length (coin.Transaction.Out txn))
                 (ReadableTransactionOutput.mk "" "" "" 0));
      Ok {| ReadableTransaction.Length := coin.Transaction.Length txn;
            ReadableTransaction.Type_ := coin.Transaction.Type_ txn;
            ReadableTransaction.Hash := Transaction_TxIDHex txn;
            ReadableTransaction.InnerHash :=
              SHA256_Hex (coin.Transaction.InnerHash txn);
            ReadableTransaction.Timestamp := Transaction.Time t;
            ReadableTransaction.Sigs := sigs;
            ReadableTransaction.In := in_;
            ReadableTransaction.Out := out |}.
End Visor.

(** ** A reference instance of the collaborators

    Small executable stand-ins with the shape of the real packages, on which
    the statements below are run: hexadecimal strings as [encoding/hex]
    writes them, amounts as fixed-point decimals with six places, content
    hashes by a toy digest, accrual with both of its failures, and a merge
    sort. *)

Module Sim.

Definition hex_digit (n : N) : ascii :=
  if n <? 10 then ascii_of_N (48 + n) else ascii_of_N (87 + n).

Definition hex_value (c : ascii) : option N :=
  let n := N_of_ascii c in
  if (48 <=? n) && (n <=? 57) then Some (n - 48)
  else if (97 <=? n) && (n <=? 102) then Some (n - 87)
  else if (65 <=? n) && (n <=? 70) then Some (n - 55)
  else None.

Fixpoint hex_encode (bs : list byte) : string :=
  match bs with
  | [] => EmptyString
  | b :: rest =>
      String (hex_digit (Byte.to_N b / 16))
        (String (hex_digit (Byte.to_N b mod 16)) (hex_encode rest))
  end.

Fixpoint hex_decode (s : string) : option (list byte) :=
  match s with
  | EmptyString => Some []
  | String hi (String lo rest) =>
      match hex_value hi, hex_value lo, hex_decode rest with
      | Some h, Some l, Some bs =>
          match Byte.of_N (16 * h + l) with
          | Some b => Some (b :: bs)
          | None => None
          end
      | _, _, _ => None
      end
  | String _ EmptyString => None
  end.

Definition SHA256FromHex (s : string) : result cipher.SHA256 :=
  match hex_decode s with
  | Some bs =>
      if (length bs =? 32)%nat then Ok bs
      else Err (errors_New "Invalid hex length")
  | None => Err (errors_New "encoding/hex: invalid byte")
  end.

(** Addresses: the version byte and the key in hexadecimal, in place of the
    checksummed base58 form. *)
Definition Address_String (a : cipher.Address.t) : string :=
  hex_encode (cipher.Address.Version a :: cipher.Address.Key a).

Definition DecodeBase58Address (s : string) : result cipher.Address.t :=
  match hex_decode s with
  | Some (v :: key) =>
      if (length key =? 20)%nat then Ok (cipher.Address.mk v key)
      else Err (errors_New "Invalid address length")
  | _ => Err (errors_New "Invalid base58 character")
  end.

(** Amounts: droplets as a decimal with six places. *)
Definition decimal (n : N) : string := NilZero.string_of_uint (N.to_uint n).

Definition droplet_ToString (n : uint64) : result string :=
  if n <=? MaxInt64 then
    Ok (decimal (n / 1000000) ++ "." ++
        match decimal (1000000 + n mod 1000000) with
        | String _ frac => frac
        | EmptyString => EmptyString
        end)%string
  else Err (errors_New "Droplet string conversion failed: Value is too large").

Fixpoint split_point (s : string) : string * option string :=
  match s with
  | EmptyString => (EmptyString, None)
  | String c rest =>
      if Ascii.eqb c "." then (EmptyString, Some rest)
      else let '(whole, frac) := split_point rest in (String c whole, frac)
  end.

Definition droplet_FromString (s : string) : result uint64 :=
  match split_point s with
  | (whole, Some frac) =>
      match NilEmpty.uint_of_string whole, NilEmpty.uint_of_string frac with
      | Some w, Some f =>
          if (String.length frac =? 6)%nat && negb (String.length whole =? 0)%nat
          then
            let n := N.of_uint w * 1000000 + N.of_uint f in
            if n <=? MaxInt64 then Ok n
            else Err (errors_New "Droplet string conversion failed: Value is too large")
          else Err (errors_New "Droplet string conversion failed: Invalid amount")
      | _, _ => Err (errors_New "can't convert to decimal")
      end
  | (_, None) => Err (errors_New "can't convert to decimal")
  end.

(** A toy digest: the 32 little-endian bytes of a number. *)
Fixpoint le_bytes (count : nat) (n : N) : list byte :=
  match count with
  | O => []
  | S count' =>
      match Byte.of_N (n mod 256) with
      | Some b => b :: le_bytes count' (n / 256)
      | None => []
      end
  end.

Definition digest (n : N) : cipher.SHA256 :=
  le_bytes 32 ((n * 2654435761 + 1) mod 2 ^ 256).

Definition bytes_sum (bs : list byte) : N :=
  fold_right (fun b acc => Byte.to_N b + 251 * acc) 0 bs.

Definition UxOut_Hash (ux : coin.UxOut.t) : cipher.SHA256 :=
  digest (coin.UxHead.Time (coin.UxOut.Head ux)
          + 3 * coin.UxHead.BkSeq (coin.UxOut.Head ux)
          + 5 * bytes_sum (coin.UxBody.SrcTransaction (coin.UxOut.Body ux))
          + 7 * bytes_sum (cipher.Address.Key
                             (coin.UxBody.Address (coin.UxOut.Body ux)))
          + 11 * coin.UxBody.Coins (coin.UxOut.Body ux)
          + 13 * coin.UxBody.Hours (coin.UxOut.Body ux)).

Definition Transaction_Hash (txn : coin.Transaction.t) : cipher.SHA256 :=
  digest (coin.Transaction.Length txn
          + 3 * bytes_sum (coin.Transaction.InnerHash txn)
          + 5 * N.of_nat (length (coin.Transaction.In txn))
          + 7 * N.of_nat (length (coin.Transaction.Out txn))).

Definition TransactionOutput_UxID (o : coin.TransactionOutput.t)
  (txid : cipher.SHA256) : cipher.SHA256 :=
  digest (bytes_sum txid
          + 3 * bytes_sum (cipher.Address.Key (coin.TransactionOutput.Address o))
          + 5 * coin.TransactionOutput.Coins o
          + 7 * coin.TransactionOutput.Hours o).

(** Accrual: one hour per whole coin per hour held. The product overflowing
    is an error of its own; the final addition overflowing is the known
    one. *)
Definition UxOut_CoinHours (ux : coin.UxOut.t) (t : uint64) : result uint64 :=
  let head := coin.UxOut.Head ux in
  let body := coin.UxOut.Body ux in
  if t <? coin.UxHead.Time head then Ok (coin.UxBody.Hours body)
  else
    let seconds := t - coin.UxHead.Time head in
    let wholeCoins := coin.UxBody.Coins body / 1000000 in
    if MaxUint64 <? seconds * wholeCoins
    then Err (errors_New "uint64 multiplication overflow")
    else
      match coin.AddUint64 (coin.UxBody.Hours body)
                           (seconds * wholeCoins / 3600) with
      | Ok total => Ok total
      | Err _ => Err ErrAddEarnedCoinHoursAdditionOverflow
      end.

Definition not_greater (less : ReadableOutput.t → ReadableOutput.t → bool)
  : relation ReadableOutput.t := fun a b => less b a = false.

Global Instance not_greater_dec less a b : Decision (not_greater less a b).
Proof. unfold not_greater. apply _. Defined.

Definition sort_Slice (less : ReadableOutput.t → ReadableOutput.t → bool)
  (l : ReadableOutputs) : ReadableOutputs :=
  merge_sort (not_greater less) l.

Definition collaborators : Collaborators :=
  Build_Collaborators
    droplet_ToString droplet_FromString
    hex_encode SHA256FromHex hex_encode
    Address_String DecodeBase58Address
    UxOut_Hash UxOut_CoinHours Transaction_Hash TransactionOutput_UxID
    sort_Slice.

(** Sample ledger entities. *)

Definition address : cipher.Address.t := cipher.Address.mk x00 (replicate 20 x2a).

Definition ux (time bkSeq coins hours : uint64) : coin.UxOut.t :=
  coin.UxOut.mk (coin.UxHead.mk time bkSeq)
                (coin.UxBody.mk (digest bkSeq) address coins hours).

(** Held one second at 3600 whole coins: one hour earned on top of the
    largest declared hours. *)
Definition ux_overflow : coin.UxOut.t := ux 100 5 3600000000 MaxUint64.
(** Held 2^63 seconds at 4 whole coins: the product leaves 64 bits. *)
Definition ux_product : coin.UxOut.t := ux 0 5 4000000 7.
(** More droplets than the amount codec encodes. *)
Definition ux_unencodable : coin.UxOut.t := ux 100 5 MaxUint64 7.
Definition ux_plain : coin.UxOut.t := ux 100 5 1500000 7.

Definition plain_readable : ReadableOutput.t :=
  Eval vm_compute in
    match @NewReadableOutput collaborators 4000 ux_plain with
    | Ok out => out
    | Err _ => ReadableOutput.zero
    end.

Definition batch : coin.UxArray :=
  [ux 50 1 1000000 0; ux 100 3 3000000 0; ux 100 2 2000000 0; ux 200 4 1 0].

Definition batch_converted : ReadableOutputs :=
  Eval vm_compute in
    match traverse (@NewReadableOutput collaborators 4000) batch with
    | Ok outs => outs
    | Err _ => []
    end.

Definition readable (coins : string) (calculatedHours : uint64)
  : ReadableOutput.t :=
  ReadableOutput.mk "aa" 100 1 "" "" coins 0 calculatedHours.

Definition txn : coin.Transaction.t :=
  coin.Transaction.mk 183 0 (digest 1) [] []
    [coin.TransactionOutput.mk address 1000000 10].

(** The same transaction body under three statuses. *)
Definition genesis : Transaction.t :=
  Transaction.mk txn (TransactionStatus.mk true false 1 0) 0.
Definition pending : Transaction.t :=
  Transaction.mk txn NewUnconfirmedTransactionStatus 0.
Definition confirmed_later : Transaction.t :=
  Transaction.mk txn (TransactionStatus.mk true false 1 3) 0.

Definition genesis_readable : ReadableTransaction.t :=
  Eval vm_compute in
    match @NewReadableTransaction collaborators genesis with
    | Ok r => r
    | Err _ => ReadableTransaction.mk 0 0 0 "" "" [] [] []
    end.

Definition pending_readable : ReadableTransaction.t :=
  Eval vm_compute in
    match @NewReadableTransaction collaborators pending with
    | Ok r => r
    | Err _ => ReadableTransaction.mk 0 0 0 "" "" [] [] []
    end.

End Sim.

(** ** The reference instance with an address decoder that checks the
    version *)

Module SimStrict.

(** Modelled from the spec: [cipher.DecodeBase58Address] is not under src/.
    The spec has the address codec among the "opaque fallible conversions"
    and has a "bad address encoding" propagate as an error; it does not say
    which encodings are bad. This decoder reads what [Sim.Address_String]
    writes and refuses every version byte but 0. *)
Definition DecodeBase58Address (s : string) : result cipher.Address.t :=
  a ← Sim.DecodeBase58Address s;
  if Byte.eqb (cipher.Address.Version a) x00 then Ok a
  else Err (errors_New "Invalid version").

Definition collaborators : Collaborators :=
  Build_Collaborators
    Sim.droplet_ToString Sim.droplet_FromString
    Sim.hex_encode Sim.SHA256FromHex Sim.hex_encode
    Sim.Address_String DecodeBase58Address
    Sim.UxOut_Hash Sim.UxOut_CoinHours Sim.Transaction_Hash
    Sim.TransactionOutput_UxID
    Sim.sort_Slice.

(** An address of version 1, and [Sim.ux_plain] owned by it. *)
Definition versioned : cipher.Address.t :=
  cipher.Address.mk x01 (replicate 20 x2a).

Definition ux_versioned : coin.UxOut.t :=
  coin.UxOut.mk (coin.UxHead.mk 100 5)
                (coin.UxBody.mk (Sim.digest 5) versioned 1500000 7).

Definition versioned_readable : ReadableOutput.t :=
  Eval vm_compute in
    match @NewReadableOutput collaborators 4000 ux_versioned with
    | Ok out => out
    | Err _ => ReadableOutput.zero
    end.

End SimStrict.

(** * The rest of the file: blocks, pool transactions, aggregates *)

(** ** Further value types of the packages coin, wallet and visor *)

(** [coin.BlockHeader], with the fields the file reads. *)
Module BlockHeader.
Record t := mk {
    Version : uint32;
    Time : uint64;
    BkSeq : uint64;
    Fee : uint64;
    PrevHash : cipher.SHA256;
    BodyHash : cipher.SHA256 }.
End BlockHeader.

(** [coin.BlockBody] *)
Module BlockBody.
Record t := mk { Transactions : list coin.Transaction.t }.
End BlockBody.

(** [coin.Block] *)
Module Block.
Record t := mk { Head : BlockHeader.t; Body : BlockBody.t }.
End Block.

(** [coin.SignedBlock]: a block, embedded, and its signature. *)
Module SignedBlock.
Record t := mk { Block_ : Block.t; Sig : cipher.Sig }.
End SignedBlock.

(** [wallet.UxBalance] *)
Module UxBalance.
Record t := mk {
    Hash : cipher.SHA256;
    Time : uint64;
    BkSeq : uint64;
    SrcTransaction : cipher.SHA256;
    Address : cipher.Address.t;
    Coins : uint64;
    Hours : uint64;
    InitialHours : uint64 }.
End UxBalance.

(** [visor.UnconfirmedTxn]: a pool record; the times are [int64]
    nanoseconds, the validity flag an [int8]. *)
Module UnconfirmedTxn.
Record t := mk {
    Txn : coin.Transaction.t;
    Received : Z;
    Checked : Z;
    Announced : Z;
    IsValid : Z }.
End UnconfirmedTxn.

Module ReadableBlockHeader.
Record t := mk {
    BkSeq : uint64;
    BlockHash : string;
    PreviousBlockHash : string;
    Time : uint64;
    Fee : uint64;
    Version : uint32;
    BodyHash : string }.
End ReadableBlockHeader.

Module BlockchainMetadata.
Record t := mk {
    Head : ReadableBlockHeader.t;
    Unspents : uint64;
    Unconfirmed : uint64 }.
End BlockchainMetadata.

Module ReadableBlockBody.
Record t := mk { Transactions : list ReadableTransaction.t }.
End ReadableBlockBody.

Module ReadableBlock.
Record t := mk {
    Head : ReadableBlockHeader.t;
    Body : ReadableBlockBody.t;
    Size : Z }.
End ReadableBlock.

Module ReadableBlocks.
Record t := mk { Blocks : list ReadableBlock.t }.
End ReadableBlocks.

Module TransactionOutputJSON.
Record t := mk {
    Hash : string;
    SourceTransaction : string;
    Address : string;
    Coins : string;
    Hours : uint64 }.
End TransactionOutputJSON.

Module TransactionJSON.
Record t := mk {
    Hash : string;
    InnerHash : string;
    Sigs : list string;
    In : list string;
    Out : list TransactionOutputJSON.t }.
End TransactionJSON.

(** ** Further collaborators *)

Class BlockCollaborators := {
  (** the [Error] method of the error interface *)
  error_Error : error → string;
  (** package coin: the hash of a header, the sequence number and the
      serialized size of a block *)
  BlockHeader_Hash : BlockHeader.t → cipher.SHA256;
  Block_Seq : Block.t → uint64;
  Block_Size : Block.t → Z;
  (** package time and the pool's [nanoToTime] *)
  time_Time : Type;
  nanoToTime : Z → time_Time;
  (** package encoding/json *)
  json_MarshalIndent : TransactionJSON.t → result string }.

Module ReadableUnconfirmedTxn.
Record t `{BlockCollaborators} := mk {
    Txn : ReadableTransaction.t;
    Received : time_Time;
    Checked : time_Time;
    Announced : time_Time;
    IsValid : bool }.
End ReadableUnconfirmedTxn.

(** [rbs = append(rbs, ...)] for every element, with an early return on
    error. *)
Fixpoint append_each {A B} (f : A → result B) (xs : list A) (dst : list B)
  : result (list B) :=
  match xs with
  | [] => Ok dst
  | x :: rest =>
      match f x with
      | Err e => Err e
      | Ok y => append_each f rest (dst ++ [y])
      end
  end.

(** What is known of an amount: the droplets it decodes to, if it does. *)
Definition decoded `{Collaborators} (o : ReadableOutput.t) : option uint64 :=
  match droplet_FromString (ReadableOutput.Coins o) with
  | Ok coins => Some coins
  | Err _ => None
  end.

(** The droplets of the outputs of one address. *)
Definition address_total `{Collaborators} (addr : string)
  (outs : ReadableOutputs) : N :=
  N_sum (omap decoded
           (filter (fun o => ReadableOutput.Address o = addr) outs)).

(** The sum of the values of a map from addresses to droplets. *)
Definition map_total (m : gmap string uint64) : N :=
  map_fold (fun _ v acc => v + acc) 0 m.

Section VisorBlocks.
Context `{Collaborators} `{BlockCollaborators}.

(** [fmt.Errorf(prefix + "%v", err)]: a new error whose message ends with
    the message of [err]. *)
Definition fmt_Errorf (prefix : string) (err : error) : error :=
  errors_New (prefix ++ error_Error err).

(** [if err != nil { return nil, fmt.Errorf(prefix + "%v", err) }] *)
Definition wrap {A} (prefix : string) (r : result A) : result A :=
  match r with
  | Ok a => Ok a
  | Err e => Err (fmt_Errorf prefix e)
  end.

Definition NewReadableBlockHeader (b : BlockHeader.t) : ReadableBlockHeader.t :=
  {| ReadableBlockHeader.BkSeq := BlockHeader.BkSeq b;
     ReadableBlockHeader.BlockHash := SHA256_Hex (BlockHeader_Hash b);
     ReadableBlockHeader.PreviousBlockHash :=
       SHA256_Hex (BlockHeader.PrevHash b);
     ReadableBlockHeader.Time := BlockHeader.Time b;
     ReadableBlockHeader.Fee := BlockHeader.Fee b;
     ReadableBlockHeader.Version := BlockHeader.Version b;
     ReadableBlockHeader.BodyHash := SHA256_Hex (BlockHeader.BodyHash b) |}.

Definition NewBlockchainMetadata (head : SignedBlock.t)
  (unconfirmedLen unspentsLen : uint64) : result BlockchainMetadata.t :=
  Ok {| BlockchainMetadata.Head :=
          NewReadableBlockHeader (Block.Head (SignedBlock.Block_ head));
        BlockchainMetadata.Unspents := unspentsLen;
        BlockchainMetadata.Unconfirmed := unconfirmedLen |}.

(** The transaction of a block as [NewReadableBlockBody] tags it: the
    fields the literal leaves out are zero. *)
Definition block_transaction (b : Block.t) (txn : coin.Transaction.t)
  : Transaction.t :=
  {| Transaction.Txn := txn;
     Transaction.Status :=
       {| TransactionStatus.BlockSeq := Block_Seq b;
          TransactionStatus.Confirmed := true;
          TransactionStatus.Unconfirmed := false;
          TransactionStatus.Height := 0 |};
     Transaction.Time := 0 |}.

Definition ReadableTransaction_zero : ReadableTransaction.t :=
  ReadableTransaction.mk 0 0 0 "" "" [] [] [].

Definition NewReadableBlockBody (b : Block.t) : result ReadableBlockBody.t :=
  txns ← fill_each (fun txn => NewReadableTransaction (block_transaction b txn))
           0 (BlockBody.Transactions (Block.Body b))
           (replicate (length (BlockBody.Transactions (Block.Body b)))
              ReadableTransaction_zero);
  Ok {| ReadableBlockBody.Transactions := txns |}.

Definition NewReadableBlock (b : Block.t) : result ReadableBlock.t :=
  body ← NewReadableBlockBody b;
  Ok {| ReadableBlock.Head := NewReadableBlockHeader (Block.Head b);
        ReadableBlock.Body := body;
        ReadableBlock.Size := Block_Size b |}.

Definition NewReadableBlocks (blocks : list SignedBlock.t)
  : result ReadableBlocks.t :=
  rbs ← append_each (fun b => NewReadableBlock (SignedBlock.Block_ b))
          blocks [];
  Ok {| ReadableBlocks.Blocks := rbs |}.

(** The transaction of a pool record as [NewReadableUnconfirmedTxn] wraps
    it: status and time are zero values. *)
Definition pool_transaction (unconfirmed : UnconfirmedTxn.t) : Transaction.t :=
  {| Transaction.Txn := UnconfirmedTxn.Txn unconfirmed;
     Transaction.Status :=
       {| TransactionStatus.Confirmed := false;
          TransactionStatus.Unconfirmed := false;
          TransactionStatus.Height := 0;
          TransactionStatus.BlockSeq := 0 |};
     Transaction.Time := 0 |}.

Definition NewReadableUnconfirmedTxn (unconfirmed : UnconfirmedTxn.t)
  : result ReadableUnconfirmedTxn.t :=
  tx ← NewReadableTransaction (pool_transaction unconfirmed);
  Ok {| ReadableUnconfirmedTxn.Txn := tx;
        ReadableUnconfirmedTxn.Received :=
          nanoToTime (UnconfirmedTxn.Received unconfirmed);
        ReadableUnconfirmedTxn.Checked :=
          nanoToTime (UnconfirmedTxn.Checked unconfirmed);
        ReadableUnconfirmedTxn.Announced :=
          nanoToTime (UnconfirmedTxn.Announced unconfirmed);
        ReadableUnconfirmedTxn.IsValid :=
          Z.eqb (UnconfirmedTxn.IsValid unconfirmed) 1 |}.

Definition ReadableUnconfirmedTxn_zero : ReadableUnconfirmedTxn.t :=
  {| ReadableUnconfirmedTxn.Txn := ReadableTransaction_zero;
     ReadableUnconfirmedTxn.Received := nanoToTime 0;
     ReadableUnconfirmedTxn.Checked := nanoToTime 0;
     ReadableUnconfirmedTxn.Announced := nanoToTime 0;
     ReadableUnconfirmedTxn.IsValid := false |}.

Definition NewReadableUnconfirmedTxns (txs : list UnconfirmedTxn.t)
  : result (list ReadableUnconfirmedTxn.t) :=
  fill_each NewReadableUnconfirmedTxn 0 txs
    (replicate (length txs) ReadableUnconfirmedTxn_zero).

(** One turn of the loop of [ToUxArray]: the output it appends. *)
Definition ReadableOutputToUxOut (o : ReadableOutput.t) : result coin.UxOut.t :=
  coins ← droplet_FromString (ReadableOutput.Coins o);
  addr ← DecodeBase58Address (ReadableOutput.Address o);
  srcTx ← SHA256FromHex (ReadableOutput.SourceTransaction o);
  Ok {| coin.UxOut.Head :=
          {| coin.UxHead.Time := ReadableOutput.Time o;
             coin.UxHead.BkSeq := ReadableOutput.BkSeq o |};
        coin.UxOut.Body :=
          {| coin.UxBody.SrcTransaction := srcTx;
             coin.UxBody.Address := addr;
             coin.UxBody.Coins := coins;
             coin.UxBody.Hours := ReadableOutput.Hours o |} |}.

(** [AggregateUnspentOutputs]: the loop body, threaded through the map
    built so far. *)
Fixpoint AggregateUnspentOutputs_from (allAccounts : gmap string uint64)
  (outs : ReadableOutputs) : result (gmap string uint64) :=
  match outs with
  | [] => Ok allAccounts
  | out :: rest =>
      amt ← droplet_FromString (ReadableOutput.Coins out);
      match allAccounts !! ReadableOutput.Address out with
      | Some current =>
          total ← coin.AddUint64 current amt;
          AggregateUnspentOutputs_from
            (<[ReadableOutput.Address out := total]> allAccounts) rest
      | None =>
          AggregateUnspentOutputs_from
            (<[ReadableOutput.Address out := amt]> allAccounts) rest
      end
  end.

Definition AggregateUnspentOutputs (os : ReadableOutputSet.t)
  : result (gmap string uint64) :=
  AggregateUnspentOutputs_from ∅ (ReadableOutputSet.HeadOutputs os).

Definition UxBalance_zero : UxBalance.t :=
  UxBalance.mk cipher.SHA256_zero 0 0 cipher.SHA256_zero
    (cipher.Address.mk x00 (replicate 20 x00)) 0 0 0.

(** One turn of the loop of [ReadableOutputsToUxBalances]. *)
Definition ReadableOutputToUxBalance (ro : ReadableOutput.t)
  : result UxBalance.t :=
  if decide (ReadableOutput.Hash ro = "")
  then Err (errors_New "ReadableOutput missing hash")
  else
    hash ← wrap "ReadableOutput hash is invalid: "
              (SHA256FromHex (ReadableOutput.Hash ro));
    coins ← wrap "ReadableOutput coins is invalid: "
              (droplet_FromString (ReadableOutput.Coins ro));
    addr ← wrap "ReadableOutput address is invalid: "
              (DecodeBase58Address (ReadableOutput.Address ro));
    srcTx ← wrap "ReadableOutput src_tx is invalid: "
              (SHA256FromHex (ReadableOutput.SourceTransaction ro));
    Ok {| UxBalance.Hash := hash;
          UxBalance.Time := ReadableOutput.Time ro;
          UxBalance.BkSeq := ReadableOutput.BkSeq ro;
          UxBalance.SrcTransaction := srcTx;
          UxBalance.Address := addr;
          UxBalance.Coins := coins;
          UxBalance.Hours := ReadableOutput.CalculatedHours ro;
          UxBalance.InitialHours := ReadableOutput.Hours ro |}.

Definition ReadableOutputsToUxBalances (ros : ReadableOutputs)
  : result (list UxBalance.t) :=
  fill_each ReadableOutputToUxBalance 0 ros
    (replicate (length ros) UxBalance_zero).

(** The hash is that of a temporary unspent output whose head the literal
    leaves at its zero value. *)
Definition NewTxOutputJSON (ux : coin.TransactionOutput.t)
  (srcTx : cipher.SHA256) : result TransactionOutputJSON.t :=
  let tmp :=
    {| coin.UxOut.Head := {| coin.UxHead.Time := 0; coin.UxHead.BkSeq := 0 |};
       coin.UxOut.Body :=
         {| coin.UxBody.SrcTransaction := srcTx;
            coin.UxBody.Address := coin.TransactionOutput.Address ux;
            coin.UxBody.Coins := coin.TransactionOutput.Coins ux;
            coin.UxBody.Hours := coin.TransactionOutput.Hours ux |} |} in
  coin_ ← droplet_ToString (coin.TransactionOutput.Coins ux);
  Ok {| TransactionOutputJSON.Hash := SHA256_Hex (UxOut_Hash tmp);
        TransactionOutputJSON.SourceTransaction := SHA256_Hex srcTx;
        TransactionOutputJSON.Address :=
          Address_String (coin.TransactionOutput.Address ux);
        TransactionOutputJSON.Coins := coin_;
        TransactionOutputJSON.Hours := coin.TransactionOutput.Hours ux |}.

(** The value [TransactionToJSON] hands to the JSON encoder. *)
Definition TransactionJSON_of (tx : coin.Transaction.t)
  : result TransactionJSON.t :=
  out ← fill_each (fun y => NewTxOutputJSON y (coin.Transaction.InnerHash tx))
          0 (coin.Transaction.Out tx)
          (replicate (length (coin.Transaction.Out tx))
             (TransactionOutputJSON.mk "" "" "" "" 0));
  Ok {| TransactionJSON.Hash := SHA256_Hex (Transaction_Hash tx);
        TransactionJSON.InnerHash := SHA256_Hex (coin.Transaction.InnerHash tx);
        TransactionJSON.Sigs :=
          assign_each Sig_Hex 0 (coin.Transaction.Sigs tx)
            (replicate (length (coin.Transaction.Sigs tx)) "");
        TransactionJSON.In :=
          assign_each SHA256_Hex 0 (coin.Transaction.In tx)
            (replicate (length (coin.Transaction.In tx)) "");
        TransactionJSON.Out := out |}.

Definition TransactionToJSON (tx : coin.Transaction.t) : result string :=
  o ← TransactionJSON_of tx;
  wrap "serialize TransactionJSON failed: " (json_MarshalIndent o).

End VisorBlocks.

(** ** A reference instance of the further collaborators *)

Module SimBlocks.

Definition error_Error (e : error) : string :=
  match e with
  | ErrAddEarnedCoinHoursAdditionOverflow =>
      "UxOut.CoinHours addition of earned coin hours overflow"
  | ErrUint64AddOverflow => "uint64 addition overflow"
  | errors_New msg => msg
  end.

Definition BlockHeader_Hash (h : BlockHeader.t) : cipher.SHA256 :=
  Sim.digest (BlockHeader.BkSeq h
              + 3 * BlockHeader.Time h
              + 5 * Sim.bytes_sum (BlockHeader.PrevHash h)
              + 7 * Sim.bytes_sum (BlockHeader.BodyHash h)).

Definition Block_Seq (b : Block.t) : uint64 :=
  BlockHeader.BkSeq (Block.Head b).

Definition Block_Size (b : Block.t) : Z :=
  Z.of_nat (length (BlockBody.Transactions (Block.Body b))).

(** Times as seconds and nanoseconds. *)
Definition nanoToTime (n : Z) : Z * Z :=
  (Z.div n 1000000000, Z.modulo n 1000000000).

(** The encoder refuses nothing; the text is the transaction id followed by
    the identifiers of the outputs. *)
Definition json_MarshalIndent (o : TransactionJSON.t) : result string :=
  Ok (fold_left (fun acc out => acc ++ " " ++ TransactionOutputJSON.Hash out)
        (TransactionJSON.Out o) (TransactionJSON.Hash o))%string.

Definition collaborators : BlockCollaborators :=
  Build_BlockCollaborators error_Error BlockHeader_Hash Block_Seq Block_Size
    (Z * Z)%type nanoToTime json_MarshalIndent.

Definition header (seq : uint64) : BlockHeader.t :=
  BlockHeader.mk 0 (1000 + seq) seq 10 (Sim.digest seq) (Sim.digest (seq + 1)).

Definition spend : coin.Transaction.t :=
  coin.Transaction.mk 220 0 (Sim.digest 2) [] [Sim.digest 7]
    [coin.TransactionOutput.mk Sim.address 2000000 4;
     coin.TransactionOutput.mk Sim.address 500000 1].

(** A transaction paying more droplets than the amount codec encodes. *)
Definition unencodable : coin.Transaction.t :=
  coin.Transaction.mk 183 0 (Sim.digest 3) [] [Sim.digest 8]
    [coin.TransactionOutput.mk Sim.address MaxUint64 0].

Definition block (seq : uint64) (txns : list coin.Transaction.t) : Block.t :=
  Block.mk (header seq) (BlockBody.mk txns).

Definition pool (txn : coin.Transaction.t) (valid : Z) : UnconfirmedTxn.t :=
  UnconfirmedTxn.mk txn 1500000000 2500000000 0 valid.

Definition signed (b : Block.t) : SignedBlock.t :=
  SignedBlock.mk b (replicate 65 x00).

(** Readable outputs of named accounts, the amounts of the last in a form
    the amount codec does not read. *)
Definition account (hash address coins : string) (calculatedHours : uint64)
  : ReadableOutput.t :=
  ReadableOutput.mk hash 100 1 "" address coins 0 calculatedHours.

Definition alice1 : ReadableOutput.t := account "a1" "alice" "1.500000" 3.
Definition alice2 : ReadableOutput.t := account "a2" "alice" "0.250000" 5.
Definition bob1 : ReadableOutput.t := account "b1" "bob" "2.000000" 1.
Definition dave1 : ReadableOutput.t := account "d1" "dave" "4.000000" 2.
Definition unreadable : ReadableOutput.t := account "x1" "alice" "many" 0.

Definition accounts : ReadableOutputSet.t :=
  ReadableOutputSet.mk [alice1; alice2; bob1] [bob1] [dave1].

(** A converted output with its hash erased and other calculated hours, and
    one with an amount the codec does not read. *)
Definition without_hash : ReadableOutput.t :=
  ReadableOutput.mk ""
    (ReadableOutput.Time Sim.plain_readable)
    (ReadableOutput.BkSeq Sim.plain_readable)
    (ReadableOutput.SourceTransaction Sim.plain_readable)
    (ReadableOutput.Address Sim.plain_readable)
    (ReadableOutput.Coins Sim.plain_readable)
    (ReadableOutput.Hours Sim.plain_readable) 99.

Definition with_coins (coins : string) : ReadableOutput.t :=
  ReadableOutput.mk
    (ReadableOutput.Hash Sim.plain_readable)
    (ReadableOutput.Time Sim.plain_readable)
    (ReadableOutput.BkSeq Sim.plain_readable)
    (ReadableOutput.SourceTransaction Sim.plain_readable)
    (ReadableOutput.Address Sim.plain_readable)
    coins
    (ReadableOutput.Hours Sim.plain_readable)
    (ReadableOutput.CalculatedHours Sim.plain_readable).

End SimBlocks.

(** * Properties *)

(** ** Output set reconciliation *)

Lemma elem_of_spending_from (outgoing : ReadableOutputs) (acc : gset string) h :
  h ∈ foldl (fun spending u => {[ ReadableOutput.Hash u ]} ∪ spending)
        acc outgoing
  ↔ h ∈ acc ∨ h ∈ ReadableOutput.Hash <$> outgoing.
Proof.
  revert acc. induction outgoing as [|u outgoing IH]; intros acc; simpl.
  - rewrite elem_of_nil. tauto.
  - rewrite IH, elem_of_union, elem_of_singleton, elem_of_cons. tauto.
Qed.

Lemma elem_of_spending_set (outgoing : ReadableOutputs) h :
  h ∈ spending_set outgoing ↔ h ∈ ReadableOutput.Hash <$> outgoing.
Proof.
  unfold spending_set. rewrite elem_of_spending_from.
  rewrite elem_of_empty. tauto.
Qed.

Lemma keep_unspent_from (spending : gset string) (head acc : ReadableOutputs) :
  foldl (fun outs o =>
           if decide (ReadableOutput.Hash o ∈ spending) then outs
           else outs ++ [o]) acc head
  = acc ++ filter (fun o => ReadableOutput.Hash o ∉ spending) head.
Proof.
  revert acc. induction head as [|o head IH]; intros acc.
  - simpl. by rewrite app_nil_r.
  - rewrite filter_cons. cbn [foldl]. rewrite IH.
    destruct (decide (ReadableOutput.Hash o ∈ spending)).
    + rewrite decide_False by tauto. done.
    + rewrite decide_True by done. by rewrite <- app_assoc.
Qed.

Lemma filter_all {A} (P : A → Prop) `{∀ x, Decision (P x)} (l : list A) :
  (∀ x, x ∈ l → P x) → filter P l = l.
Proof.
  induction l as [|x l IH]; intros Hall; [done|].
  rewrite filter_cons_True by (apply Hall; left).
  f_equal. apply IH. intros y Hy. apply Hall. by right.
Qed.

Lemma SpendableOutputs_filter (head outgoing incoming : ReadableOutputs) :
  SpendableOutputs (ReadableOutputSet.mk head outgoing incoming)
  = filter (fun o => ReadableOutput.Hash o ∉ ReadableOutput.Hash <$> outgoing)
      head.
Proof.
  unfold SpendableOutputs; simpl.
  destruct outgoing as [|u outgoing]; simpl.
  - symmetry. apply filter_all. intros o _. apply not_elem_of_nil.
  - fold (spending_set (u :: outgoing)).
    rewrite keep_unspent_from. simpl.
    apply list_filter_iff. intros o.
    by rewrite elem_of_spending_set.
Qed.

(** C1. [SpendableOutputs] keeps, in the order of the head outputs, exactly
    the head outputs whose hash is the hash of no outgoing output; with no
    outgoing output it returns the head outputs themselves. *)
Theorem SpendableOutputs_head_minus_outgoing
  (head outgoing incoming : ReadableOutputs) :
  SpendableOutputs (ReadableOutputSet.mk head outgoing incoming)
  = filter (fun o => ReadableOutput.Hash o ∉ ReadableOutput.Hash <$> outgoing)
      head
  ∧ SpendableOutputs (ReadableOutputSet.mk head [] incoming) = head.
Proof.
  split; [apply SpendableOutputs_filter | reflexivity].
Qed.

(** C7. [ExpectedOutputs] is the spendable outputs followed by the incoming
    outputs: every incoming output is kept, in its place, whatever its
    hash. *)
Theorem ExpectedOutputs_spendable_then_incoming
  (head outgoing incoming : ReadableOutputs) :
  let os := ReadableOutputSet.mk head outgoing incoming in
  ExpectedOutputs os = SpendableOutputs os ++ incoming
  ∧ ExpectedOutputs os
    = filter (fun o => ReadableOutput.Hash o ∉ ReadableOutput.Hash <$> outgoing)
        head ++ incoming
  ∧ length (ExpectedOutputs os)
    = (length (SpendableOutputs os) + length incoming)%nat.
Proof.
  intros os. unfold ExpectedOutputs. simpl.
  split; [done|]. split.
  - f_equal. apply SpendableOutputs_filter.
  - apply length_app.
Qed.

(** The spec's example: head [A@100, B@100, C@50], outgoing [B], incoming
    [D@200]. *)
Example reconcile_example :
  let A := ReadableOutput.mk "aa" 100 1 "" "" "1.000000" 0 0 in
  let B := ReadableOutput.mk "bb" 100 1 "" "" "1.000000" 0 0 in
  let C := ReadableOutput.mk "cc" 50 1 "" "" "1.000000" 0 0 in
  let D := ReadableOutput.mk "dd" 200 2 "" "" "1.000000" 0 0 in
  let os := ReadableOutputSet.mk [A; B; C] [B] [D] in
  SpendableOutputs os = [A; C] ∧ ExpectedOutputs os = [A; C; D].
Proof. split; vm_compute; reflexivity. Qed.

(** ** Transaction status *)

(** C8. With height 0 [NewConfirmedTransactionStatus] panics and returns no
    status; with any other height it returns the confirmed status of that
    height and block sequence. *)
Theorem NewConfirmedTransactionStatus_height (height blockSeq : uint64) :
  (height = 0 →
   ∃ msg, NewConfirmedTransactionStatus height blockSeq = Panicked msg)
  ∧ (0 < height →
     NewConfirmedTransactionStatus height blockSeq
     = Returned {| TransactionStatus.Confirmed := true;
                   TransactionStatus.Unconfirmed := false;
                   TransactionStatus.Height := height;
                   TransactionStatus.BlockSeq := blockSeq |}).
Proof.
  unfold NewConfirmedTransactionStatus, logger_Panic. split.
  - intros ->. eauto.
  - intros Hpos. destruct (N.eqb_spec height 0) as [->|_]; [lia|done].
Qed.

Lemma NewConfirmedTransactionStatus_height_witness :
  (∃ msg, NewConfirmedTransactionStatus 0 7 = Panicked msg)
  ∧ NewConfirmedTransactionStatus 3 7
    = Returned {| TransactionStatus.Confirmed := true;
                  TransactionStatus.Unconfirmed := false;
                  TransactionStatus.Height := 3;
                  TransactionStatus.BlockSeq := 7 |}.
Proof.
  split.
  - apply (NewConfirmedTransactionStatus_height 0 7). reflexivity.
  - apply (NewConfirmedTransactionStatus_height 3 7). reflexivity.
Defined.

(** ** The destination-slice loops *)

Lemma assign_each_from {A B} (f : A → B) (z : B) (xs : list A)
  (done_ : list B) (rest : list B) :
  length rest = length xs →
  assign_each f (length done_) xs (done_ ++ rest) = done_ ++ (f <$> xs).
Proof.
  revert done_ rest. induction xs as [|x xs IH]; intros done_ rest Hlen.
  - destruct rest; [|done]. done.
  - destruct rest as [|r rest]; [done|]. simpl in Hlen.
    cbn [assign_each].
    replace (<[length done_ := f x]> (done_ ++ r :: rest))
      with ((done_ ++ [f x]) ++ rest).
    + replace (S (length done_)) with (length (done_ ++ [f x]))
        by (rewrite length_app; simpl; lia).
      rewrite IH by lia. by rewrite <- app_assoc.
    + rewrite insert_app_r_alt by lia.
      rewrite Nat.sub_diag. simpl. by rewrite <- app_assoc.
Qed.

Lemma assign_each_map {A B} (f : A → B) (z : B) (xs : list A) :
  assign_each f 0 xs (replicate (length xs) z) = f <$> xs.
Proof.
  apply (assign_each_from f z xs [] (replicate (length xs) z)).
  apply length_replicate.
Qed.

Lemma fill_each_from {A B} (f : A → result B) (xs : list A)
  (done_ : list B) (rest : list B) :
  length rest = length xs →
  fill_each f (length done_) xs (done_ ++ rest)
  = match traverse f xs with
    | Ok ys => Ok (done_ ++ ys)
    | Err e => Err e
    end.
Proof.
  revert done_ rest. induction xs as [|x xs IH]; intros done_ rest Hlen.
  - destruct rest; [|done]. done.
  - destruct rest as [|r rest]; [done|]. simpl in Hlen.
    cbn [fill_each traverse]. destruct (f x) as [y|e]; [|done].
    replace (<[length done_ := y]> (done_ ++ r :: rest))
      with ((done_ ++ [y]) ++ rest).
    + replace (S (length done_)) with (length (done_ ++ [y]))
        by (rewrite length_app; simpl; lia).
      rewrite IH by lia. destruct (traverse f xs); [|done].
      by rewrite <- app_assoc.
    + rewrite insert_app_r_alt by lia.
      rewrite Nat.sub_diag. simpl. by rewrite <- app_assoc.
Qed.

Lemma fill_each_traverse {A B} (f : A → result B) (z : B) (xs : list A) :
  fill_each f 0 xs (replicate (length xs) z) = traverse f xs.
Proof.
  pose proof (fill_each_from f xs [] (replicate (length xs) z)
                (length_replicate _ _)) as Hfill.
  simpl in Hfill. rewrite Hfill. by destruct (traverse f xs).
Qed.

Lemma traverse_Ok_length {A B} (f : A → result B) xs ys :
  traverse f xs = Ok ys → length ys = length xs.
Proof.
  revert ys. induction xs as [|x xs IH]; intros ys; simpl.
  - by intros [= <-].
  - destruct (f x); [|done]. destruct (traverse f xs) as [ys'|]; [|done].
    intros [= <-]. simpl. f_equal. by apply IH.
Qed.

Lemma traverse_Ok_Forall2 {A B} (f : A → result B) xs ys :
  traverse f xs = Ok ys ↔ Forall2 (fun x y => f x = Ok y) xs ys.
Proof.
  revert ys. induction xs as [|x xs IH]; intros ys; simpl.
  - split; [intros [= <-]; constructor | by inversion 1].
  - split.
    + destruct (f x) as [y|] eqn:Hx; [|done].
      destruct (traverse f xs) as [ys'|]; [|done].
      intros [= <-]. constructor; [done|]. by apply IH.
    + inversion 1 as [|? y ? ys' Hx Hrest]; subst.
      rewrite Hx. apply IH in Hrest. by rewrite Hrest.
Qed.

(** ** Entity readers *)

Section Readers.
Context `{Collaborators}.

Lemma NewReadableOutput_Ok (headTime : uint64) (t : coin.UxOut.t)
  (coinStr : string) (hours : uint64) :
  droplet_ToString (coin.UxBody.Coins (coin.UxOut.Body t)) = Ok coinStr →
  (UxOut_CoinHours t headTime = Ok hours
   ∨ (UxOut_CoinHours t headTime = Err ErrAddEarnedCoinHoursAdditionOverflow
      ∧ hours = 0)) →
  NewReadableOutput headTime t
  = Ok {| ReadableOutput.Hash := SHA256_Hex (UxOut_Hash t);
          ReadableOutput.Time := coin.UxHead.Time (coin.UxOut.Head t);
          ReadableOutput.BkSeq := coin.UxHead.BkSeq (coin.UxOut.Head t);
          ReadableOutput.SourceTransaction :=
            SHA256_Hex (coin.UxBody.SrcTransaction (coin.UxOut.Body t));
          ReadableOutput.Address :=
            Address_String (coin.UxBody.Address (coin.UxOut.Body t));
          ReadableOutput.Coins := coinStr;
          ReadableOutput.Hours := coin.UxBody.Hours (coin.UxOut.Body t);
          ReadableOutput.CalculatedHours := hours |}.
Proof.
  intros Hcoins Hhours. unfold NewReadableOutput. rewrite Hcoins. simpl.
  destruct Hhours as [-> | [-> ->]]; [done|].
  by rewrite decide_True.
Qed.

Lemma NewReadableOutput_inv (headTime : uint64) (t : coin.UxOut.t)
  (out : ReadableOutput.t) :
  NewReadableOutput headTime t = Ok out →
  droplet_ToString (coin.UxBody.Coins (coin.UxOut.Body t))
  = Ok (ReadableOutput.Coins out)
  ∧ (UxOut_CoinHours t headTime = Ok (ReadableOutput.CalculatedHours out)
     ∨ (UxOut_CoinHours t headTime = Err ErrAddEarnedCoinHoursAdditionOverflow
        ∧ ReadableOutput.CalculatedHours out = 0))
  ∧ ReadableOutput.Hash out = SHA256_Hex (UxOut_Hash t)
  ∧ ReadableOutput.Time out = coin.UxHead.Time (coin.UxOut.Head t)
  ∧ ReadableOutput.BkSeq out = coin.UxHead.BkSeq (coin.UxOut.Head t)
  ∧ ReadableOutput.SourceTransaction out
    = SHA256_Hex (coin.UxBody.SrcTransaction (coin.UxOut.Body t))
  ∧ ReadableOutput.Address out
    = Address_String (coin.UxBody.Address (coin.UxOut.Body t))
  ∧ ReadableOutput.Hours out = coin.UxBody.Hours (coin.UxOut.Body t).
Proof.
  unfold NewReadableOutput.
  destruct (droplet_ToString _) as [coinStr|]; [simpl|done].
  destruct (UxOut_CoinHours t headTime) as [hours|e]; simpl.
  - intros [= <-]. simpl. tauto.
  - destruct (decide (e = ErrAddEarnedCoinHoursAdditionOverflow)) as [->|];
      [simpl|done].
    intros [= <-]. simpl. tauto.
Qed.

(** C6. In [NewReadableOutput], once the amount is encoded, the known
    earned-coin-hours overflow of the accrual gives a readable output with
    calculated hours 0; any other accrual error, and any amount encoding
    error, is returned. *)
Theorem NewReadableOutput_error_policy (headTime : uint64) (t : coin.UxOut.t) :
  (∀ coinStr,
     droplet_ToString (coin.UxBody.Coins (coin.UxOut.Body t)) = Ok coinStr →
     UxOut_CoinHours t headTime = Err ErrAddEarnedCoinHoursAdditionOverflow →
     ∃ out, NewReadableOutput headTime t = Ok out
            ∧ ReadableOutput.CalculatedHours out = 0)
  ∧ (∀ e, UxOut_CoinHours t headTime = Err e →
          e ≠ ErrAddEarnedCoinHoursAdditionOverflow →
          is_Err (NewReadableOutput headTime t)
          ∧ (is_Ok (droplet_ToString (coin.UxBody.Coins (coin.UxOut.Body t)))
             → NewReadableOutput headTime t = Err e))
  ∧ (∀ e, droplet_ToString (coin.UxBody.Coins (coin.UxOut.Body t)) = Err e →
          NewReadableOutput headTime t = Err e).
Proof.
  split; [|split].
  - intros coinStr Hcoins Hover.
    eexists. split; [apply (NewReadableOutput_Ok _ _ coinStr 0); auto|done].
  - intros e He Hne. unfold NewReadableOutput. rewrite He.
    destruct (droplet_ToString _); simpl; [|done].
    by rewrite decide_False.
  - intros e He. unfold NewReadableOutput. by rewrite He.
Qed.

(** C10. In [NewReadableTransactionInput], once the amount is encoded, no
    accrual error is returned: whatever the error, the input is produced
    with calculated hours 0. [NewReadableOutput] forgives the known overflow
    alone and returns every other accrual error. *)
Theorem NewReadableTransactionInput_tolerates_accrual
  (ux : coin.UxOut.t) (calculateHoursTime : uint64) (coinVal : string) :
  droplet_ToString (coin.UxBody.Coins (coin.UxOut.Body ux)) = Ok coinVal →
  is_Ok (NewReadableTransactionInput ux calculateHoursTime)
  ∧ (∀ e, UxOut_CoinHours ux calculateHoursTime = Err e →
       (∃ inp, NewReadableTransactionInput ux calculateHoursTime = Ok inp
               ∧ ReadableTransactionInput.CalculatedHours inp = 0)
       ∧ (e ≠ ErrAddEarnedCoinHoursAdditionOverflow →
          NewReadableOutput calculateHoursTime ux = Err e)
       ∧ (e = ErrAddEarnedCoinHoursAdditionOverflow →
          is_Ok (NewReadableOutput calculateHoursTime ux))).
Proof.
  intros Hcoins. unfold NewReadableTransactionInput, NewReadableOutput.
  rewrite Hcoins. simpl. split; [done|].
  intros e ->. split; [eauto|]. simpl. split.
  - intros Hne. by rewrite decide_False.
  - intros ->. by rewrite decide_True.
Qed.

(** ** Readable transactions *)

Lemma NewReadableTransaction_inv (t : Transaction.t)
  (r : ReadableTransaction.t) :
  NewReadableTransaction t = Ok r →
  ReadableTransaction.Hash r = Transaction_TxIDHex (Transaction.Txn t)
  ∧ traverse (fun o => NewReadableTransactionOutput o (output_txid t))
      (coin.Transaction.Out (Transaction.Txn t))
    = Ok (ReadableTransaction.Out r)
  ∧ ReadableTransaction.In r
    = SHA256_Hex <$> coin.Transaction.In (Transaction.Txn t)
  ∧ ReadableTransaction.Sigs r
    = Sig_Hex <$> coin.Transaction.Sigs (Transaction.Txn t).
Proof.
  unfold NewReadableTransaction.
  destruct (_ && _ && _); [done|].
  rewrite fill_each_traverse, !assign_each_map.
  destruct (traverse _ _) as [out|]; [simpl|done].
  intros [= <-]. simpl. done.
Qed.

(** C9. A transaction confirmed in a block other than block 0 and without
    inputs is refused: an error is returned and no readable transaction. *)
Theorem NewReadableTransaction_confirmed_needs_inputs (t : Transaction.t) :
  TransactionStatus.Confirmed (Transaction.Status t) = true →
  TransactionStatus.BlockSeq (Transaction.Status t) ≠ 0 →
  coin.Transaction.In (Transaction.Txn t) = [] →
  ∃ e, NewReadableTransaction t = Err e.
Proof.
  intros Hconf Hseq Hin. unfold NewReadableTransaction.
  rewrite Hconf, Hin. apply N.eqb_neq in Hseq. rewrite Hseq. simpl.
  eauto.
Qed.

(** C2, as the code has it. The reported transaction id is the hex content
    hash of the transaction whatever its status. The all-zero hash of a
    confirmed transaction of block 0 is the id its output identifiers are
    derived from; an unconfirmed transaction of block 0 has them derived
    from its content hash. *)
Theorem NewReadableTransaction_txid (t : Transaction.t)
  (r : ReadableTransaction.t) :
  NewReadableTransaction t = Ok r →
  ReadableTransaction.Hash r
  = SHA256_Hex (Transaction_Hash (Transaction.Txn t))
  ∧ (TransactionStatus.BlockSeq (Transaction.Status t) = 0 →
     TransactionStatus.Confirmed (Transaction.Status t) = true →
     traverse (fun o => NewReadableTransactionOutput o cipher.SHA256_zero)
       (coin.Transaction.Out (Transaction.Txn t))
     = Ok (ReadableTransaction.Out r))
  ∧ (TransactionStatus.BlockSeq (Transaction.Status t) = 0 →
     TransactionStatus.Confirmed (Transaction.Status t) = false →
     traverse (fun o => NewReadableTransactionOutput o
                          (Transaction_Hash (Transaction.Txn t)))
       (coin.Transaction.Out (Transaction.Txn t))
     = Ok (ReadableTransaction.Out r)).
Proof.
  intros Hr. apply NewReadableTransaction_inv in Hr as (Hhash & Hout & _).
  split; [done|]. unfold output_txid in Hout.
  split; intros Hseq Hconf; rewrite Hseq, Hconf in Hout; exact Hout.
Qed.

End Readers.

(** ** Reverse conversion and balances *)

Lemma N_sum_cons (x : N) (l : list N) : N_sum (x :: l) = x + N_sum l.
Proof. reflexivity. Qed.

Section Reconciler.
Context `{Collaborators}.

Lemma ToUxArray_singleton (o : ReadableOutput.t) coins addr srcTx :
  droplet_FromString (ReadableOutput.Coins o) = Ok coins →
  DecodeBase58Address (ReadableOutput.Address o) = Ok addr →
  SHA256FromHex (ReadableOutput.SourceTransaction o) = Ok srcTx →
  ToUxArray [o]
  = Ok [ {| coin.UxOut.Head :=
              {| coin.UxHead.Time := ReadableOutput.Time o;
                 coin.UxHead.BkSeq := ReadableOutput.BkSeq o |};
            coin.UxOut.Body :=
              {| coin.UxBody.SrcTransaction := srcTx;
                 coin.UxBody.Address := addr;
                 coin.UxBody.Coins := coins;
                 coin.UxBody.Hours := ReadableOutput.Hours o |} |} ].
Proof.
  intros Hcoins Haddr Hsrc. unfold ToUxArray. simpl.
  rewrite Hcoins. simpl. rewrite Haddr. simpl. rewrite Hsrc. done.
Qed.

(** C4, as the code has it. For an unspent output that [NewReadableOutput]
    converts, [ToUxArray] of the singleton decodes the amount, the address
    and the source transaction again, and the three codecs are
    collaborators. When they decode what they encoded for this output, the
    call succeeds with one output of the same time, block sequence, source
    transaction, address, coins and hours; the call cannot return the
    original output otherwise. It returns an error exactly when one of the
    three decoders refuses its encoding; and an output it returns has the
    time, block sequence and hours of the original whatever the codecs
    do. *)
Theorem NewReadableOutput_ToUxArray_roundtrip (headTime : uint64)
  (ux : coin.UxOut.t) (ro : ReadableOutput.t) :
  NewReadableOutput headTime ux = Ok ro →
  ((∀ coinStr,
      droplet_ToString (coin.UxBody.Coins (coin.UxOut.Body ux)) = Ok coinStr →
      droplet_FromString coinStr
      = Ok (coin.UxBody.Coins (coin.UxOut.Body ux))) →
   DecodeBase58Address
     (Address_String (coin.UxBody.Address (coin.UxOut.Body ux)))
   = Ok (coin.UxBody.Address (coin.UxOut.Body ux)) →
   SHA256FromHex
     (SHA256_Hex (coin.UxBody.SrcTransaction (coin.UxOut.Body ux)))
   = Ok (coin.UxBody.SrcTransaction (coin.UxOut.Body ux)) →
   ∃ ux', ToUxArray [ro] = Ok [ux']
     ∧ coin.UxHead.Time (coin.UxOut.Head ux')
       = coin.UxHead.Time (coin.UxOut.Head ux)
     ∧ coin.UxHead.BkSeq (coin.UxOut.Head ux')
       = coin.UxHead.BkSeq (coin.UxOut.Head ux)
     ∧ coin.UxBody.SrcTransaction (coin.UxOut.Body ux')
       = coin.UxBody.SrcTransaction (coin.UxOut.Body ux)
     ∧ coin.UxBody.Address (coin.UxOut.Body ux')
       = coin.UxBody.Address (coin.UxOut.Body ux)
     ∧ coin.UxBody.Coins (coin.UxOut.Body ux')
       = coin.UxBody.Coins (coin.UxOut.Body ux)
     ∧ coin.UxBody.Hours (coin.UxOut.Body ux')
       = coin.UxBody.Hours (coin.UxOut.Body ux)
     ∧ ux' = ux)
  ∧ (ToUxArray [ro] = Ok [ux] →
     (∀ coinStr,
        droplet_ToString (coin.UxBody.Coins (coin.UxOut.Body ux))
        = Ok coinStr →
        droplet_FromString coinStr
        = Ok (coin.UxBody.Coins (coin.UxOut.Body ux)))
     ∧ DecodeBase58Address
         (Address_String (coin.UxBody.Address (coin.UxOut.Body ux)))
       = Ok (coin.UxBody.Address (coin.UxOut.Body ux))
     ∧ SHA256FromHex
         (SHA256_Hex (coin.UxBody.SrcTransaction (coin.UxOut.Body ux)))
       = Ok (coin.UxBody.SrcTransaction (coin.UxOut.Body ux)))
  ∧ (is_Err (ToUxArray [ro])
     ↔ is_Err (droplet_FromString (ReadableOutput.Coins ro))
       ∨ is_Err (DecodeBase58Address
                   (Address_String
                      (coin.UxBody.Address (coin.UxOut.Body ux))))
       ∨ is_Err (SHA256FromHex
                   (SHA256_Hex
                      (coin.UxBody.SrcTransaction (coin.UxOut.Body ux)))))
  ∧ (∀ uxs, ToUxArray [ro] = Ok uxs →
       ∃ ux', uxs = [ux']
         ∧ coin.UxHead.Time (coin.UxOut.Head ux')
           = coin.UxHead.Time (coin.UxOut.Head ux)
         ∧ coin.UxHead.BkSeq (coin.UxOut.Head ux')
           = coin.UxHead.BkSeq (coin.UxOut.Head ux)
         ∧ coin.UxBody.Hours (coin.UxOut.Body ux')
           = coin.UxBody.Hours (coin.UxOut.Body ux)).
Proof.
  intros Hro.
  apply NewReadableOutput_inv in Hro
    as (Hc & _ & _ & Htime & Hseq & Hst & Ha & Hh).
  split; [|split; [|split]].
  - intros Hcoins Haddr Hsrc. apply Hcoins in Hc.
    rewrite <- Ha in Haddr. rewrite <- Hst in Hsrc.
    eexists. split; [by apply ToUxArray_singleton|].
    simpl. rewrite Htime, Hseq, Hh.
    repeat (split; [done|]).
    by destruct ux as [[] []].
  - unfold ToUxArray. cbn [ToUxArray_from]. rewrite Hst, Ha.
    destruct (droplet_FromString _) as [coins|] eqn:Hcoins; [|done].
    destruct (DecodeBase58Address _) as [addr|]; [|done].
    destruct (SHA256FromHex _) as [srcTx|]; [|done].
    simpl. intros [= Hux]. rewrite <- Hux. simpl.
    split; [|done]. intros coinStr Hstr.
    rewrite <- Hux in Hc. simpl in Hc. rewrite Hc in Hstr.
    by injection Hstr as <-.
  - unfold ToUxArray. cbn [ToUxArray_from]. rewrite Hst, Ha.
    destruct (droplet_FromString _); [|simpl; tauto].
    destruct (DecodeBase58Address _); [|simpl; tauto].
    destruct (SHA256FromHex _); simpl; tauto.
  - intros uxs. unfold ToUxArray. cbn [ToUxArray_from].
    destruct (droplet_FromString _); [|done].
    destruct (DecodeBase58Address _); [|done].
    destruct (SHA256FromHex _); [|done].
    simpl. intros [= <-]. eexists. split; [reflexivity|]. simpl.
    by rewrite Htime, Hseq, Hh.
Qed.

(** One turn of the balance loop, without unfolding the list functors. *)
Ltac balance_step :=
  rewrite ?fmap_cons, ?N_sum_cons;
  cbn [Balance_from traverse mbind result_bind
       wallet.Balance.Coins wallet.Balance.Hours].

Ltac checked_add a b :=
  unfold coin.AddUint64;
  destruct (N.leb_spec (a + b) MaxUint64);
  cbn [mbind result_bind wallet.Balance.Coins wallet.Balance.Hours].

(** The balance loop keeps exact sums below the 64-bit bound. *)
Lemma Balance_from_Ok (ros : ReadableOutputs) (bal bal' : wallet.Balance.t) :
  Balance_from bal ros = Ok bal' →
  ∃ coins,
    traverse droplet_FromString (ReadableOutput.Coins <$> ros) = Ok coins
    ∧ wallet.Balance.Coins bal' = wallet.Balance.Coins bal + N_sum coins
    ∧ wallet.Balance.Hours bal'
      = wallet.Balance.Hours bal
        + N_sum (ReadableOutput.CalculatedHours <$> ros)
    ∧ (wallet.Balance.Coins bal ≤ MaxUint64 →
       wallet.Balance.Coins bal' ≤ MaxUint64)
    ∧ (wallet.Balance.Hours bal ≤ MaxUint64 →
       wallet.Balance.Hours bal' ≤ MaxUint64).
Proof.
  revert bal. induction ros as [|out ros IH]; intros bal.
  - intros [= <-]. exists []. simpl. rewrite !N.add_0_r. done.
  - balance_step.
    destruct (droplet_FromString _) as [c|]; balance_step; [|done].
    checked_add (wallet.Balance.Coins bal) c; [|done].
    checked_add (wallet.Balance.Hours bal)
                (ReadableOutput.CalculatedHours out); [|done].
    intros Hrest. apply IH in Hrest as (cs & Hcs & Hc & Hh & Hcb & Hhb).
    cbn [wallet.Balance.Coins wallet.Balance.Hours] in *.
    exists (c :: cs). rewrite Hcs. balance_step.
    split; [done|]. split; [lia|]. split; [lia|]. split; auto.
Qed.

Lemma Balance_from_fits (ros : ReadableOutputs) (bal : wallet.Balance.t) coins :
  traverse droplet_FromString (ReadableOutput.Coins <$> ros) = Ok coins →
  wallet.Balance.Coins bal + N_sum coins ≤ MaxUint64 →
  wallet.Balance.Hours bal + N_sum (ReadableOutput.CalculatedHours <$> ros)
  ≤ MaxUint64 →
  Balance_from bal ros
  = Ok {| wallet.Balance.Coins := wallet.Balance.Coins bal + N_sum coins;
          wallet.Balance.Hours :=
            wallet.Balance.Hours bal
            + N_sum (ReadableOutput.CalculatedHours <$> ros) |}.
Proof.
  revert bal coins. induction ros as [|out ros IH]; intros bal coins.
  - intros [= <-] _ _. simpl. rewrite !N.add_0_r. by destruct bal.
  - balance_step.
    destruct (droplet_FromString _) as [c|]; balance_step; [|done].
    destruct (traverse _ _) as [cs|] eqn:Hcs; [|done].
    intros [= <-]. balance_step. intros Hc Hh.
    checked_add (wallet.Balance.Coins bal) c; [|lia].
    checked_add (wallet.Balance.Hours bal)
                (ReadableOutput.CalculatedHours out); [|lia].
    rewrite (IH _ cs);
      cbn [wallet.Balance.Coins wallet.Balance.Hours]; [|done|lia|lia].
    f_equal. f_equal; lia.
Qed.

Lemma Balance_from_overflow (pre post : ReadableOutputs)
  (bal : wallet.Balance.t) coins :
  traverse droplet_FromString (ReadableOutput.Coins <$> pre) = Ok coins →
  wallet.Balance.Coins bal ≤ MaxUint64 →
  wallet.Balance.Hours bal ≤ MaxUint64 →
  MaxUint64 < wallet.Balance.Coins bal + N_sum coins
  ∨ MaxUint64 < wallet.Balance.Hours bal
                + N_sum (ReadableOutput.CalculatedHours <$> pre) →
  is_Err (Balance_from bal (pre ++ post)).
Proof.
  revert bal coins. induction pre as [|out pre IH]; intros bal coins.
  - intros [= <-]. simpl. lia.
  - rewrite <- app_comm_cons. balance_step.
    destruct (droplet_FromString _) as [c|]; balance_step; [|done].
    destruct (traverse _ _) as [cs|] eqn:Hcs; [|done].
    intros [= <-]. balance_step. intros Hcb Hhb Hover.
    checked_add (wallet.Balance.Coins bal) c; [|done].
    checked_add (wallet.Balance.Hours bal)
                (ReadableOutput.CalculatedHours out); [|done].
    apply (IH _ cs);
      cbn [wallet.Balance.Coins wallet.Balance.Hours]; [done|done|done|lia].
Qed.

(** C5. [Balance] returns an error as soon as the coins or the calculated
    hours of a prefix of the outputs sum above 64 bits; a balance it returns
    holds the exact sums, both within 64 bits; and it returns that balance
    whenever every amount decodes and both sums fit. *)
Theorem Balance_checked_sums (ros : ReadableOutputs) :
  (∀ pre post coins,
     ros = pre ++ post →
     traverse droplet_FromString (ReadableOutput.Coins <$> pre) = Ok coins →
     MaxUint64 < N_sum coins
     ∨ MaxUint64 < N_sum (ReadableOutput.CalculatedHours <$> pre) →
     is_Err (Balance ros))
  ∧ (∀ bal,
       Balance ros = Ok bal →
       ∃ coins,
         traverse droplet_FromString (ReadableOutput.Coins <$> ros) = Ok coins
         ∧ wallet.Balance.Coins bal = N_sum coins
         ∧ wallet.Balance.Hours bal
           = N_sum (ReadableOutput.CalculatedHours <$> ros)
         ∧ wallet.Balance.Coins bal ≤ MaxUint64
         ∧ wallet.Balance.Hours bal ≤ MaxUint64)
  ∧ (∀ coins,
       traverse droplet_FromString (ReadableOutput.Coins <$> ros) = Ok coins →
       N_sum coins ≤ MaxUint64 →
       N_sum (ReadableOutput.CalculatedHours <$> ros) ≤ MaxUint64 →
       Balance ros
       = Ok {| wallet.Balance.Coins := N_sum coins;
               wallet.Balance.Hours :=
                 N_sum (ReadableOutput.CalculatedHours <$> ros) |}).
Proof.
  unfold Balance. split; [|split].
  - intros pre post coins -> Hdec Hover.
    apply (Balance_from_overflow pre post _ coins); simpl;
      [done|unfold MaxUint64; lia|unfold MaxUint64; lia|done].
  - intros bal Hbal.
    apply Balance_from_Ok in Hbal as (cs & Hcs & Hc & Hh & Hcb & Hhb).
    simpl in *. exists cs.
    split; [done|]. split; [done|]. split; [done|].
    split; [apply Hcb|apply Hhb]; unfold MaxUint64; lia.
  - intros coins Hdec Hc Hh.
    by rewrite (Balance_from_fits ros _ coins).
Qed.

End Reconciler.

(** ** The order of a batch of outputs *)

Lemma strings_Compare_refl (s : string) : strings_Compare s s = Eq.
Proof.
  unfold strings_Compare. induction s as [|c s IH]; simpl; [done|].
  unfold Ascii.compare. by rewrite N.compare_refl.
Qed.

Lemma strings_Compare_eq (a b : string) : strings_Compare a b = Eq → a = b.
Proof. apply String.compare_eq_iff. Qed.

Lemma strings_Compare_antisym (a b : string) :
  strings_Compare a b = CompOpp (strings_Compare b a).
Proof. apply String.compare_antisym. Qed.

Lemma strings_Compare_lt_trans (a b c : string) :
  strings_Compare a b = Lt → strings_Compare b c = Lt →
  strings_Compare a c = Lt.
Proof.
  unfold strings_Compare. revert b c.
  induction a as [|x a IH]; intros [|y b] [|z c]; simpl; try done.
  unfold Ascii.compare.
  destruct (N.compare_spec (N_of_ascii x) (N_of_ascii y)) as [Hxy|Hxy|Hxy];
    destruct (N.compare_spec (N_of_ascii y) (N_of_ascii z)) as [Hyz|Hyz|Hyz];
    try done; intros Hab Hbc.
  - rewrite (proj2 (N.compare_eq_iff _ _)) by congruence. by eapply IH.
  - by rewrite (proj2 (N.compare_lt_iff _ _)) by lia.
  - by rewrite (proj2 (N.compare_lt_iff _ _)) by lia.
  - by rewrite (proj2 (N.compare_lt_iff _ _)) by lia.
Qed.

Lemma output_less_true (a b : ReadableOutput.t) :
  output_less a b = true
  ↔ ReadableOutput.Time b < ReadableOutput.Time a
    ∨ (ReadableOutput.Time a = ReadableOutput.Time b
       ∧ strings_Compare (ReadableOutput.Hash a) (ReadableOutput.Hash b) = Lt).
Proof.
  unfold output_less.
  destruct (N.eqb_spec (ReadableOutput.Time a) (ReadableOutput.Time b))
    as [Heq|Hne].
  - destruct (strings_Compare _ _); split; try done.
    + intros [Hlt|[_ Hc]]; [lia|done].
    + intros _. by right.
    + intros [Hlt|[_ Hc]]; [lia|done].
  - rewrite N.ltb_lt. split; [by left|].
    by intros [Hlt|[Ht _]].
Qed.

Lemma output_less_false (a b : ReadableOutput.t) :
  output_less b a = false ↔ newest_first a b.
Proof.
  unfold newest_first. rewrite <- not_true_iff_false, output_less_true.
  rewrite (strings_Compare_antisym (ReadableOutput.Hash b)).
  destruct (N.lt_trichotomy (ReadableOutput.Time a) (ReadableOutput.Time b))
    as [Hlt|[Heq|Hgt]];
    destruct (strings_Compare (ReadableOutput.Hash a) (ReadableOutput.Hash b));
    simpl; split; intros Hc.
  all: try (by left).
  all: try (by right).
  all: try (exfalso; apply Hc; by (left + right)).
  all: try (intros [?|[? ?]]; done || lia).
  all: try (destruct Hc as [?|[? ?]]; done || lia).
Qed.

Lemma output_less_incomparable (a b : ReadableOutput.t) :
  output_less a b = false → output_less b a = false →
  output_key a = output_key b.
Proof.
  rewrite !output_less_false. unfold newest_first, output_key.
  intros [?|[Ht' Hba]] [?|[Ht Hab]]; try lia.
  rewrite strings_Compare_antisym in Hba.
  destruct (strings_Compare (ReadableOutput.Hash a) (ReadableOutput.Hash b))
    eqn:Hc; try done.
  apply strings_Compare_eq in Hc. by rewrite Ht, Hc.
Qed.

Lemma output_less_same_key (a b : ReadableOutput.t) :
  output_key a = output_key b → output_less a b = false.
Proof.
  unfold output_key. intros [= Ht Hh]. unfold output_less.
  rewrite Ht, N.eqb_refl, Hh. by rewrite strings_Compare_refl.
Qed.

(** The comparator of [NewReadableOutputs] is a strict weak order, as
    [sort.Slice] asks. *)
Lemma output_less_strict_weak_order : StrictWeakOrder output_less.
Proof.
  split.
  - intros a. by apply output_less_same_key.
  - intros a b c. rewrite !output_less_true.
    intros [?|[Hab Hlt1]] [?|[Hbc Hlt2]].
    + left. lia.
    + left. lia.
    + left. lia.
    + right. split; [congruence|]. by eapply strings_Compare_lt_trans.
  - intros a b c Hab Hba Hbc Hcb.
    pose proof (output_less_incomparable a b Hab Hba) as Hk1.
    pose proof (output_less_incomparable b c Hbc Hcb) as Hk2.
    split; apply output_less_same_key; congruence.
Qed.

(** Two outputs of different hashes are never left unordered: exactly one
    comes before the other. *)
Lemma output_less_distinct_hashes (a b : ReadableOutput.t) :
  ReadableOutput.Hash a ≠ ReadableOutput.Hash b →
  output_less a b = negb (output_less b a).
Proof.
  intros Hne.
  destruct (output_less a b) eqn:Hab, (output_less b a) eqn:Hba; try done.
  - pose proof (swo_trans _ output_less_strict_weak_order a b a Hab Hba) as Haa.
    by rewrite (swo_irrefl _ output_less_strict_weak_order) in Haa.
  - pose proof (output_less_incomparable a b Hab Hba) as [= _ Hh]. done.
Qed.

Global Instance key_order_antisymm : AntiSymm (=) key_order.
Proof.
  intros [t1 h1] [t2 h2]. unfold key_order. simpl.
  intros [?|[Ht H12]] [?|[Ht' H21]]; try lia.
  rewrite strings_Compare_antisym in H21.
  destruct (strings_Compare h1 h2) eqn:Hc; try done.
  apply strings_Compare_eq in Hc. by subst.
Qed.

Lemma newest_first_key_order (a b : ReadableOutput.t) :
  newest_first a b → key_order (output_key a) (output_key b).
Proof. done. Qed.

(** Two batches with the same outputs, both in order, show the same times
    and hashes in the same places. *)
Lemma newest_first_keys_unique (l1 l2 : ReadableOutputs) :
  l1 ≡ₚ l2 → StronglySorted newest_first l1 → StronglySorted newest_first l2 →
  output_key <$> l1 = output_key <$> l2.
Proof.
  intros Hperm Hs1 Hs2.
  apply (StronglySorted_unique key_order).
  - by apply (StronglySorted_fmap output_key newest_first key_order).
  - by apply (StronglySorted_fmap output_key newest_first key_order).
  - by rewrite Hperm.
Qed.

Lemma NoDup_fmap_eq {A B} (f : A → B) (l : list A) x y :
  NoDup (f <$> l) → x ∈ l → y ∈ l → f x = f y → x = y.
Proof.
  induction l as [|z l IH]; [by rewrite elem_of_nil|].
  rewrite fmap_cons, NoDup_cons, !elem_of_cons.
  intros [Hz Hnd] [->|Hx] [->|Hy] Hf; auto.
  - exfalso. apply Hz. rewrite Hf. by apply list_elem_of_fmap_2.
  - exfalso. apply Hz. rewrite <- Hf. by apply list_elem_of_fmap_2.
Qed.

(** With pairwise different hashes the batch in order is unique. *)
Lemma newest_first_unique (l1 l2 : ReadableOutputs) :
  NoDup (ReadableOutput.Hash <$> l1) →
  l1 ≡ₚ l2 → StronglySorted newest_first l1 → StronglySorted newest_first l2 →
  l1 = l2.
Proof.
  intros Hnd Hperm Hs1 Hs2.
  apply (StronglySorted_unique_strong newest_first); [|done..].
  intros x1 x2 Hx1 Hx2 H12 H21.
  apply (NoDup_fmap_eq ReadableOutput.Hash l1); [done|done|by rewrite Hperm|].
  apply output_less_false in H12, H21.
  by pose proof (output_less_incomparable x1 x2 H21 H12) as [= _ Hh].
Qed.

Lemma StronglySorted_weaken {A} (R1 R2 : relation A) (l : list A) :
  (∀ x y, R1 x y → R2 x y) → StronglySorted R1 l → StronglySorted R2 l.
Proof.
  intros Himpl. induction 1 as [|x l Hl IH Hx]; constructor; [done|].
  eapply Forall_impl; [exact Hx|]. intros y. apply Himpl.
Qed.

Section Batch.
Context `{Collaborators}.
Hypothesis sort_Slice_contract : SortContract sort_Slice.

Lemma NewReadableOutputs_traverse (headTime : uint64) (uxs : coin.UxArray) :
  NewReadableOutputs headTime uxs
  = match traverse (NewReadableOutput headTime) uxs with
    | Ok outs => Ok (sort_Slice output_less outs)
    | Err e => Err e
    end.
Proof.
  unfold NewReadableOutputs. rewrite fill_each_traverse.
  by destruct (traverse _ _).
Qed.

Lemma sort_Slice_newest_first (l : ReadableOutputs) :
  StronglySorted newest_first (sort_Slice output_less l).
Proof.
  eapply StronglySorted_weaken;
    [|apply (sort_orders _ sort_Slice_contract), output_less_strict_weak_order].
  intros a b. apply output_less_false.
Qed.

(** C3. When every output converts, [NewReadableOutputs] returns the
    converted outputs, permuted so that they stand newest first and, at
    equal times, in ascending order of hash. The order does not depend on
    how the outputs were given nor on how [sort.Slice] sorts: any ordered
    arrangement of the same outputs shows the same times and hashes in the
    same places, and is the same list when the hashes are pairwise
    different; sorting the result again changes neither. The comparator
    orders any two outputs of different hashes one way exactly. *)
Theorem NewReadableOutputs_sorted (headTime : uint64) (uxs : coin.UxArray)
  (outs : ReadableOutputs) :
  traverse (NewReadableOutput headTime) uxs = Ok outs →
  ∃ ros,
    NewReadableOutputs headTime uxs = Ok ros
    ∧ ros ≡ₚ outs
    ∧ StronglySorted newest_first ros
    ∧ (∀ l, l ≡ₚ outs → StronglySorted newest_first l →
         output_key <$> l = output_key <$> ros)
    ∧ (NoDup (ReadableOutput.Hash <$> outs) →
       ∀ l, l ≡ₚ outs → StronglySorted newest_first l → l = ros)
    ∧ output_key <$> sort_Slice output_less ros = output_key <$> ros
    ∧ (∀ a b, ReadableOutput.Hash a ≠ ReadableOutput.Hash b →
         output_less a b = negb (output_less b a)).
Proof.
  intros Houts. exists (sort_Slice output_less outs).
  rewrite NewReadableOutputs_traverse, Houts.
  assert (sort_Slice output_less outs ≡ₚ outs) as Hperm
    by (symmetry; apply (sort_permutes _ sort_Slice_contract)).
  pose proof (sort_Slice_newest_first outs) as Hsorted.
  split; [done|]. split; [done|]. split; [done|]. split; [|split; [|split]].
  - intros l Hl Hs. apply newest_first_keys_unique; [|done..].
    by rewrite Hl, Hperm.
  - intros Hnd l Hl Hs. apply newest_first_unique; [|by rewrite Hl|done..].
    by rewrite Hl.
  - apply newest_first_keys_unique; [|apply sort_Slice_newest_first|done].
    symmetry. apply (sort_permutes _ sort_Slice_contract).
  - apply output_less_distinct_hashes.
Qed.

End Batch.

(** * The statements on the reference instance *)

Lemma Sim_sort_Slice_contract : SortContract Sim.sort_Slice.
Proof.
  split.
  - intros less l. unfold Sim.sort_Slice. symmetry.
    apply merge_sort_Permutation.
  - intros less l [Hirr Htrans Hinc]. unfold Sim.sort_Slice.
    assert (Total (Sim.not_greater less)) as Htotal.
    { intros a b. unfold Sim.not_greater.
      destruct (less b a) eqn:Hba; [right|by left].
      destruct (less a b) eqn:Hab; [|done].
      by rewrite <- (Hirr b), (Htrans b a b). }
    assert (Transitive (Sim.not_greater less)) as Htransitive.
    { intros a b c. unfold Sim.not_greater. intros Hba Hcb.
      destruct (less c a) eqn:Hca; [exfalso|done].
      destruct (less a b) eqn:Hab.
      { by rewrite (Htrans c a b) in Hcb. }
      destruct (less b c) eqn:Hbc.
      { by rewrite (Htrans b c a) in Hba. }
      destruct (Hinc a b c) as [_ Hca']; congruence. }
    apply (StronglySorted_merge_sort (Sim.not_greater less)).
Qed.

Lemma NewReadableOutput_error_policy_witness :
  (∃ out, @NewReadableOutput Sim.collaborators 101 Sim.ux_overflow = Ok out
          ∧ ReadableOutput.CalculatedHours out = 0)
  ∧ @NewReadableOutput Sim.collaborators (2 ^ 63) Sim.ux_product
    = Err (errors_New "uint64 multiplication overflow")
  ∧ @NewReadableOutput Sim.collaborators 101 Sim.ux_unencodable
    = Err (errors_New "Droplet string conversion failed: Value is too large").
Proof.
  split; [|split].
  - apply (proj1 (@NewReadableOutput_error_policy Sim.collaborators 101
                    Sim.ux_overflow) "3600.000000"%string);
      vm_compute; reflexivity.
  - apply (proj1 (proj2 (@NewReadableOutput_error_policy Sim.collaborators
                           (2 ^ 63) Sim.ux_product))).
    + vm_compute; reflexivity.
    + discriminate.
    + vm_compute. exact I.
  - apply (proj2 (proj2 (@NewReadableOutput_error_policy Sim.collaborators
                           101 Sim.ux_unencodable))).
    vm_compute; reflexivity.
Defined.

Lemma NewReadableTransactionInput_tolerates_accrual_witness :
  is_Ok (@NewReadableTransactionInput Sim.collaborators Sim.ux_product (2 ^ 63))
  ∧ (∃ inp, @NewReadableTransactionInput Sim.collaborators Sim.ux_product
              (2 ^ 63) = Ok inp
            ∧ ReadableTransactionInput.CalculatedHours inp = 0)
  ∧ @NewReadableOutput Sim.collaborators (2 ^ 63) Sim.ux_product
    = Err (errors_New "uint64 multiplication overflow").
Proof.
  pose proof (@NewReadableTransactionInput_tolerates_accrual Sim.collaborators
                Sim.ux_product (2 ^ 63) "4.000000"%string) as Hthm.
  destruct Hthm as [Hok Herr]; [vm_compute; reflexivity|].
  split; [exact Hok|].
  destruct (Herr (errors_New "uint64 multiplication overflow"))
    as (Hinp & Hout & _); [vm_compute; reflexivity|].
  split; [exact Hinp|]. apply Hout. discriminate.
Defined.

Lemma NewReadableTransaction_confirmed_needs_inputs_witness :
  ∃ e, @NewReadableTransaction Sim.collaborators Sim.confirmed_later = Err e.
Proof.
  apply (@NewReadableTransaction_confirmed_needs_inputs Sim.collaborators
           Sim.confirmed_later); [reflexivity|discriminate|reflexivity].
Defined.

Lemma NewReadableTransaction_txid_witness :
  (ReadableTransaction.Hash Sim.genesis_readable
   = Sim.hex_encode (Sim.Transaction_Hash Sim.txn)
   ∧ traverse (fun o => @NewReadableTransactionOutput Sim.collaborators o
                          cipher.SHA256_zero)
       (coin.Transaction.Out Sim.txn)
     = Ok (ReadableTransaction.Out Sim.genesis_readable))
  ∧ (ReadableTransaction.Hash Sim.pending_readable
     = Sim.hex_encode (Sim.Transaction_Hash Sim.txn)
     ∧ traverse (fun o => @NewReadableTransactionOutput Sim.collaborators o
                            (Sim.Transaction_Hash Sim.txn))
         (coin.Transaction.Out Sim.txn)
       = Ok (ReadableTransaction.Out Sim.pending_readable)).
Proof.
  split.
  - destruct (@NewReadableTransaction_txid Sim.collaborators Sim.genesis
                Sim.genesis_readable) as (Hhash & Hzero & _);
      [vm_compute; reflexivity|].
    split; [exact Hhash|]. apply Hzero; reflexivity.
  - destruct (@NewReadableTransaction_txid Sim.collaborators Sim.pending
                Sim.pending_readable) as (Hhash & _ & Hreal);
      [vm_compute; reflexivity|].
    split; [exact Hhash|]. apply Hreal; reflexivity.
Defined.

(** C2, as the specification has it, fails: the transaction below is
    confirmed in block 0 and its reported id is its content hash, not the
    all-zero hash. *)
Lemma genesis_txid_is_content_hash :
  TransactionStatus.Confirmed (Transaction.Status Sim.genesis) = true
  ∧ TransactionStatus.BlockSeq (Transaction.Status Sim.genesis) = 0
  ∧ @NewReadableTransaction Sim.collaborators Sim.genesis
    = Ok Sim.genesis_readable
  ∧ ReadableTransaction.Hash Sim.genesis_readable
    = "e9fa4cc950a88014010000000000000000000000000000000000000000000000"%string
  ∧ ReadableTransaction.Hash Sim.genesis_readable
    ≠ @SHA256_Hex Sim.collaborators cipher.SHA256_zero.
Proof.
  split; [reflexivity|]. split; [reflexivity|].
  split; [vm_compute; reflexivity|].
  split; [vm_compute; reflexivity|]. vm_compute. discriminate.
Qed.

Lemma NewReadableOutput_ToUxArray_roundtrip_witness :
  (∃ ux', @ToUxArray Sim.collaborators [Sim.plain_readable] = Ok [ux']
          ∧ ux' = Sim.ux_plain)
  ∧ is_Err (@ToUxArray SimStrict.collaborators [SimStrict.versioned_readable]).
Proof.
  split.
  - destruct (proj1 (@NewReadableOutput_ToUxArray_roundtrip Sim.collaborators
                       4000 Sim.ux_plain Sim.plain_readable
                       ltac:(vm_compute; reflexivity)))
      as (ux' & Hback & Hfields).
    + intros coinStr Hstr. vm_compute in Hstr. injection Hstr as <-.
      vm_compute; reflexivity.
    + vm_compute; reflexivity.
    + vm_compute; reflexivity.
    + exists ux'. split; [exact Hback|]. apply Hfields.
  - apply (proj1 (proj2 (proj2
             (@NewReadableOutput_ToUxArray_roundtrip SimStrict.collaborators
                4000 SimStrict.ux_versioned SimStrict.versioned_readable
                ltac:(vm_compute; reflexivity))))).
    right. left. vm_compute; exact I.
Defined.

(** C4, as the specification has it, fails: the output below has an address
    of version 1; [NewReadableOutput] converts it, and [ToUxArray] of the
    singleton returns the error of the address decoder and no output. *)
Lemma versioned_address_is_not_read_back :
  @NewReadableOutput SimStrict.collaborators 4000 SimStrict.ux_versioned
  = Ok SimStrict.versioned_readable
  ∧ @ToUxArray SimStrict.collaborators [SimStrict.versioned_readable]
    = Err (errors_New "Invalid version")
  ∧ ¬ (∃ ux', @ToUxArray SimStrict.collaborators
                [SimStrict.versioned_readable] = Ok [ux']).
Proof.
  split; [vm_compute; reflexivity|]. split; [vm_compute; reflexivity|].
  intros [ux' Hback]. vm_compute in Hback. discriminate.
Qed.

Lemma Balance_checked_sums_witness :
  is_Err (@Balance Sim.collaborators
            [Sim.readable "1.500000" MaxUint64; Sim.readable "2.000000" 1])
  ∧ @Balance Sim.collaborators
      [Sim.readable "1.500000" 3; Sim.readable "2.000000" 1]
    = Ok {| wallet.Balance.Coins := 3500000; wallet.Balance.Hours := 4 |}.
Proof.
  split.
  - apply (proj1 (@Balance_checked_sums Sim.collaborators _)
             [Sim.readable "1.500000" MaxUint64; Sim.readable "2.000000" 1]
             [] [1500000; 2000000]).
    + reflexivity.
    + vm_compute; reflexivity.
    + right. vm_compute; reflexivity.
  - transitivity
      (Ok {| wallet.Balance.Coins := N_sum [1500000; 2000000];
             wallet.Balance.Hours :=
               N_sum (ReadableOutput.CalculatedHours
                      <$> [Sim.readable "1.500000" 3;
                           Sim.readable "2.000000" 1]) |});
      [|reflexivity].
    apply (proj2 (proj2 (@Balance_checked_sums Sim.collaborators _))
             [1500000; 2000000]).
    + vm_compute; reflexivity.
    + vm_compute; discriminate.
    + vm_compute; discriminate.
Defined.

Lemma NewReadableOutputs_sorted_witness :
  ∃ ros, @NewReadableOutputs Sim.collaborators 4000 Sim.batch = Ok ros
         ∧ ros ≡ₚ Sim.batch_converted
         ∧ StronglySorted newest_first ros
         ∧ ReadableOutput.Time <$> ros = [200; 100; 100; 50].
Proof.
  destruct (@NewReadableOutputs_sorted Sim.collaborators
              Sim_sort_Slice_contract 4000 Sim.batch Sim.batch_converted)
    as (ros & Hros & Hperm & Hsorted & _); [vm_compute; reflexivity|].
  exists ros. split; [exact Hros|]. split; [exact Hperm|].
  split; [exact Hsorted|].
  assert (Ok ros = Ok (Sim.sort_Slice output_less Sim.batch_converted))
    as [= ->]; [|vm_compute; reflexivity].
  rewrite <- Hros. vm_compute; reflexivity.
Defined.

(** The batch on the reference instance, given in either direction: newest
    first, and the two outputs of time 100 in ascending order of hash. *)
Example batch_order :
  let keys uxs :=
    match @NewReadableOutputs Sim.collaborators 4000 uxs with
    | Ok ros => output_key <$> ros
    | Err _ => []
    end in
  keys Sim.batch
  = [(200, "5e4e7319185fa06753a1987680eb338f9c2e4d6ffb26697d0000000000000000");
     (100, "4e7060be0a3353dd4fa1987680eb338f9c2e4d6ffb26697d0000000000000000");
     (100, "b6c9b003124d91aa51a1987680eb338f9c2e4d6ffb26697d0000000000000000");
     (50, "1c5a4264a230a51e4ea1987680eb338f9c2e4d6ffb26697d0000000000000000")]%string
  ∧ keys (reverse Sim.batch) = keys Sim.batch.
Proof. split; vm_compute; reflexivity. Qed.

(** * Further properties *)

(** ** Conversions element by element *)

Lemma is_Ok_exists {A} (r : result A) : is_Ok r ↔ ∃ a, r = Ok a.
Proof.
  destruct r; simpl; split; try done; eauto.
  by intros [? ?].
Qed.

Lemma is_Err_exists {A} (r : result A) : is_Err r ↔ ∃ e, r = Err e.
Proof.
  destruct r; simpl; split; try done; eauto.
  by intros [? ?].
Qed.

Lemma is_Err_not_Ok {A} (r : result A) : is_Err r ↔ ¬ is_Ok r.
Proof. destruct r; simpl; tauto. Qed.

Lemma traverse_app {A B} (f : A → result B) (xs1 xs2 : list A) :
  traverse f (xs1 ++ xs2)
  = match traverse f xs1 with
    | Ok ys1 =>
        match traverse f xs2 with
        | Ok ys2 => Ok (ys1 ++ ys2)
        | Err e => Err e
        end
    | Err e => Err e
    end.
Proof.
  induction xs1 as [|x xs1 IH]; simpl.
  - by destruct (traverse f xs2).
  - destruct (f x); [|done]. rewrite IH.
    destruct (traverse f xs1); [|done]. by destruct (traverse f xs2).
Qed.

Lemma traverse_is_Ok {A B} (f : A → result B) (xs : list A) :
  is_Ok (traverse f xs) ↔ Forall (fun x => is_Ok (f x)) xs.
Proof.
  induction xs as [|x xs IH]; simpl; [by split; [constructor|]|].
  rewrite Forall_cons, <- IH.
  destruct (f x); simpl; [|tauto]. destruct (traverse f xs); simpl; tauto.
Qed.

(** The first element that fails decides the error. *)
Lemma traverse_first_error {A B} (f : A → result B) (pre post : list A) x e :
  Forall (fun x => is_Ok (f x)) pre → f x = Err e →
  traverse f (pre ++ x :: post) = Err e.
Proof.
  intros Hpre Hx. rewrite traverse_app. apply traverse_is_Ok in Hpre.
  destruct (traverse f pre); [|done]. simpl. by rewrite Hx.
Qed.

(** An error of the batch is the error of one of its elements. *)
Lemma traverse_Err_elem {A B} (f : A → result B) (xs : list A) e :
  traverse f xs = Err e → ∃ x, x ∈ xs ∧ f x = Err e.
Proof.
  induction xs as [|x xs IH]; simpl; [done|].
  destruct (f x) as [y|e'] eqn:Hx.
  - destruct (traverse f xs); [done|]. intros [= ->].
    destruct IH as (x' & Hin & Hx'); [done|]. exists x'. split; [by right|done].
  - intros [= ->]. exists x. split; [by left|done].
Qed.

Lemma traverse_Permutation {A B} (f : A → result B) (xs xs' : list A) ys :
  xs ≡ₚ xs' → traverse f xs = Ok ys →
  ∃ ys', traverse f xs' = Ok ys' ∧ ys ≡ₚ ys'.
Proof.
  intros Hperm. revert ys.
  induction Hperm as [|x xs xs' _ IH|x1 x2 xs|xs xs' xs'' _ IH1 _ IH2];
    intros ys; simpl.
  - intros [= <-]. by exists [].
  - destruct (f x) as [y|]; [|done].
    destruct (traverse f xs) as [ys0|]; [|done]. intros [= <-].
    destruct (IH ys0) as (ys' & -> & Hys); [done|].
    exists (y :: ys'). split; [done|]. by constructor.
  - destruct (f x2) as [y2|]; [|done]. destruct (f x1) as [y1|]; [|done].
    destruct (traverse f xs) as [ys0|]; [|done]. intros [= <-].
    exists (y1 :: y2 :: ys0). split; [done|]. apply perm_swap.
  - intros Hys. destruct (IH1 _ Hys) as (ys' & Hys' & Hp1).
    destruct (IH2 _ Hys') as (ys'' & Hys'' & Hp2).
    exists ys''. split; [done|]. by etrans.
Qed.

Lemma traverse_fmap {A B C} (g : A → B) (f : B → result C) (xs : list A) :
  traverse f (g <$> xs) = traverse (fun x => f (g x)) xs.
Proof.
  induction xs as [|x xs IH]; [done|].
  rewrite fmap_cons. cbn [traverse]. by rewrite IH.
Qed.

Lemma traverse_ext {A B} (f g : A → result B) (xs : list A) :
  (∀ x, x ∈ xs → f x = g x) → traverse f xs = traverse g xs.
Proof.
  induction xs as [|x xs IH]; intros Hfg; [done|]. simpl.
  rewrite (Hfg x) by (by left). rewrite IH; [done|].
  intros y Hy. apply Hfg. by right.
Qed.

Lemma N_sum_app (l1 l2 : list N) : N_sum (l1 ++ l2) = N_sum l1 + N_sum l2.
Proof.
  induction l1 as [|x l1 IH]; [done|].
  rewrite <- app_comm_cons, !N_sum_cons, IH. lia.
Qed.

Lemma N_sum_Permutation (l1 l2 : list N) : l1 ≡ₚ l2 → N_sum l1 = N_sum l2.
Proof.
  induction 1 as [|x l1 l2 _ IH|x y l|l1 l2 l3 _ IH1 _ IH2];
    rewrite ?N_sum_cons; [done|by rewrite IH|lia|congruence].
Qed.

(** What decodes in a sublist decodes to no more. *)
Lemma traverse_filter_sum {A} (f : A → result N) (P : A → Prop)
  `{∀ x, Decision (P x)} (xs : list A) (ys : list N) :
  traverse f xs = Ok ys →
  ∃ ys', traverse f (filter P xs) = Ok ys' ∧ N_sum ys' ≤ N_sum ys.
Proof.
  revert ys. induction xs as [|x xs IH]; intros ys.
  - intros [= <-]. by exists [].
  - rewrite filter_cons. cbn [traverse].
    destruct (f x) as [y|] eqn:Hx; [|done].
    destruct (traverse f xs) as [ys0|]; [|done]. intros [= <-].
    destruct (IH ys0) as (ys' & Hys' & Hle); [done|].
    destruct (decide (P x)).
    + exists (y :: ys'). cbn [traverse]. rewrite Hx, Hys'.
      split; [done|]. rewrite !N_sum_cons. lia.
    + exists ys'. split; [done|]. rewrite N_sum_cons. lia.
Qed.

Lemma N_sum_filter_le {A} (g : A → N) (P : A → Prop)
  `{∀ x, Decision (P x)} (xs : list A) :
  N_sum (g <$> filter P xs) ≤ N_sum (g <$> xs).
Proof.
  induction xs as [|x xs IH]; [done|].
  rewrite filter_cons. destruct (decide (P x));
    rewrite ?fmap_cons, ?N_sum_cons; lia.
Qed.

(** ** Reconciliation, again *)

Lemma StronglySorted_filter {A} (R : relation A) (P : A → Prop)
  `{∀ x, Decision (P x)} (l : list A) :
  StronglySorted R l → StronglySorted R (filter P l).
Proof.
  induction 1 as [|x l _ IH Hall]; [constructor|].
  rewrite filter_cons. destruct (decide (P x)); [|done].
  constructor; [done|].
  apply Forall_forall. intros y [_ Hy]%list_elem_of_filter.
  by eapply Forall_forall in Hall.
Qed.

(** X1. The spendable outputs are a sublist of the head outputs: nothing is
    added, repeated or reordered, so an order the head outputs are sorted by
    still sorts the spendable ones; and no spendable output has the hash of
    an outgoing output. *)
Theorem SpendableOutputs_sublist (os : ReadableOutputSet.t) :
  SpendableOutputs os `sublist_of` ReadableOutputSet.HeadOutputs os
  ∧ (∀ R : relation ReadableOutput.t,
       StronglySorted R (ReadableOutputSet.HeadOutputs os) →
       StronglySorted R (SpendableOutputs os))
  ∧ (∀ o u, o ∈ SpendableOutputs os →
            u ∈ ReadableOutputSet.OutgoingOutputs os →
            ReadableOutput.Hash o ≠ ReadableOutput.Hash u).
Proof.
  destruct os as [head outgoing incoming]. rewrite SpendableOutputs_filter.
  simpl. split; [apply sublist_filter|]. split.
  - intros R Hsorted. by apply StronglySorted_filter.
  - intros o u [Hnot _]%list_elem_of_filter Hu Heq. apply Hnot.
    rewrite Heq. by apply list_elem_of_fmap_2.
Qed.

(** X2. Reconciling twice changes nothing: the spendable outputs of a set
    whose head outputs are already the spendable ones are those same
    outputs, whatever the incoming outputs. *)
Theorem SpendableOutputs_idempotent (os : ReadableOutputSet.t)
  (incoming : ReadableOutputs) :
  SpendableOutputs
    (ReadableOutputSet.mk (SpendableOutputs os)
       (ReadableOutputSet.OutgoingOutputs os) incoming)
  = SpendableOutputs os.
Proof.
  destruct os as [head outgoing incoming']. simpl.
  rewrite !SpendableOutputs_filter. apply filter_all.
  by intros o [Hnot _]%list_elem_of_filter.
Qed.

(** ** Balances of reconciled sets *)

Section Balances.
Context `{Collaborators}.

Lemma Balance_Ok_iff (ros : ReadableOutputs) (bal : wallet.Balance.t) :
  Balance ros = Ok bal
  ↔ ∃ coins,
      traverse droplet_FromString (ReadableOutput.Coins <$> ros) = Ok coins
      ∧ wallet.Balance.Coins bal = N_sum coins
      ∧ wallet.Balance.Hours bal
        = N_sum (ReadableOutput.CalculatedHours <$> ros)
      ∧ N_sum coins ≤ MaxUint64
      ∧ N_sum (ReadableOutput.CalculatedHours <$> ros) ≤ MaxUint64.
Proof.
  unfold Balance. split.
  - intros Hbal.
    apply Balance_from_Ok in Hbal as (cs & Hcs & Hc & Hh & Hcb & Hhb).
    simpl in *. rewrite N.add_0_l in Hc, Hh. exists cs. rewrite <- Hc, <- Hh.
    repeat (split; [done|]).
    split; [apply Hcb|apply Hhb]; unfold MaxUint64; lia.
  - intros (cs & Hcs & Hc & Hh & Hcb & Hhb).
    rewrite (Balance_from_fits ros _ cs); simpl; [|done..].
    destruct bal as [c h]. simpl in *. by subst.
Qed.

(** X3. The balance does not depend on the order of the outputs: a balance
    returned for a list is returned for each of its permutations, so for the
    sorted batch as for the unsorted one. *)
Theorem Balance_Permutation (ros ros' : ReadableOutputs)
  (bal : wallet.Balance.t) :
  ros ≡ₚ ros' → Balance ros = Ok bal → Balance ros' = Ok bal.
Proof.
  intros Hperm (cs & Hcs & Hc & Hh & Hcb & Hhb)%Balance_Ok_iff.
  apply Balance_Ok_iff.
  destruct (traverse_Permutation droplet_FromString
              (ReadableOutput.Coins <$> ros) (ReadableOutput.Coins <$> ros') cs)
    as (cs' & Hcs' & Hp); [by apply fmap_Permutation|done|].
  exists cs'. split; [done|].
  rewrite <- (N_sum_Permutation _ _ Hp).
  rewrite <- (N_sum_Permutation _ _
                (fmap_Permutation ReadableOutput.CalculatedHours _ _ Hperm)).
  done.
Qed.

(** X4. When the balance of the head outputs exists, so does the balance of
    the spendable outputs, and it has no more coins and no more hours: taking
    the outgoing outputs away cannot make the sums overflow or an amount
    fail to decode. *)
Theorem Balance_SpendableOutputs_bounded (os : ReadableOutputSet.t)
  (bal : wallet.Balance.t) :
  Balance (ReadableOutputSet.HeadOutputs os) = Ok bal →
  ∃ bal', Balance (SpendableOutputs os) = Ok bal'
    ∧ wallet.Balance.Coins bal' ≤ wallet.Balance.Coins bal
    ∧ wallet.Balance.Hours bal' ≤ wallet.Balance.Hours bal.
Proof.
  destruct os as [head outgoing incoming]. simpl.
  intros (cs & Hcs & Hc & Hh & Hcb & Hhb)%Balance_Ok_iff.
  rewrite SpendableOutputs_filter.
  set (P := fun o : ReadableOutput.t =>
              ReadableOutput.Hash o ∉ ReadableOutput.Hash <$> outgoing).
  rewrite traverse_fmap in Hcs.
  destruct (traverse_filter_sum _ P head cs Hcs) as (cs' & Hcs' & Hle).
  pose proof (N_sum_filter_le ReadableOutput.CalculatedHours P head) as Hhle.
  exists {| wallet.Balance.Coins := N_sum cs';
            wallet.Balance.Hours :=
              N_sum (ReadableOutput.CalculatedHours <$> filter P head) |}.
  split; [|cbn [wallet.Balance.Coins wallet.Balance.Hours];
            rewrite Hc, Hh; split; [exact Hle|exact Hhle]].
  apply Balance_Ok_iff. exists cs'. rewrite traverse_fmap.
  cbn [wallet.Balance.Coins wallet.Balance.Hours].
  repeat (split; [done|]).
  split; [exact (N.le_trans _ _ _ Hle Hcb)|exact (N.le_trans _ _ _ Hhle Hhb)].
Qed.

Lemma Balance_app (ros1 ros2 : ReadableOutputs) (bal : wallet.Balance.t) :
  Balance (ros1 ++ ros2) = Ok bal
  ↔ ∃ bal1 bal2,
      Balance ros1 = Ok bal1 ∧ Balance ros2 = Ok bal2
      ∧ wallet.Balance.Coins bal
        = wallet.Balance.Coins bal1 + wallet.Balance.Coins bal2
      ∧ wallet.Balance.Hours bal
        = wallet.Balance.Hours bal1 + wallet.Balance.Hours bal2
      ∧ wallet.Balance.Coins bal ≤ MaxUint64
      ∧ wallet.Balance.Hours bal ≤ MaxUint64.
Proof.
  rewrite Balance_Ok_iff. rewrite !fmap_app, traverse_app, N_sum_app. split.
  - intros (cs & Hcs & Hc & Hh & Hcb & Hhb).
    destruct (traverse _ (_ <$> ros1)) as [cs1|] eqn:H1; [|done].
    destruct (traverse _ (_ <$> ros2)) as [cs2|] eqn:H2; [|done].
    injection Hcs as <-. rewrite N_sum_app in Hc, Hcb.
    exists {| wallet.Balance.Coins := N_sum cs1;
              wallet.Balance.Hours :=
                N_sum (ReadableOutput.CalculatedHours <$> ros1) |},
           {| wallet.Balance.Coins := N_sum cs2;
              wallet.Balance.Hours :=
                N_sum (ReadableOutput.CalculatedHours <$> ros2) |}.
    split; [apply Balance_Ok_iff; exists cs1;
            cbn [wallet.Balance.Coins wallet.Balance.Hours];
            repeat (split; [done|]); split; lia|].
    split; [apply Balance_Ok_iff; exists cs2;
            cbn [wallet.Balance.Coins wallet.Balance.Hours];
            repeat (split; [done|]); split; lia|].
    cbn [wallet.Balance.Coins wallet.Balance.Hours]. repeat split; lia.
  - intros (b1 & b2 & (cs1 & H1 & Hc1 & Hh1 & _)%Balance_Ok_iff
              & (cs2 & H2 & Hc2 & Hh2 & _)%Balance_Ok_iff & Hc & Hh & Hcb & Hhb).
    exists (cs1 ++ cs2). rewrite H1, H2, N_sum_app.
    split; [done|]. repeat split; lia.
Qed.

(** X5. The expected balance is the spendable balance plus the incoming
    balance: [Balance] of the expected outputs returns a balance exactly
    when it returns one for the spendable and for the incoming outputs and
    the two add up within 64 bits, and then coins and hours are the sums. *)
Theorem Balance_ExpectedOutputs_adds (os : ReadableOutputSet.t)
  (bal : wallet.Balance.t) :
  Balance (ExpectedOutputs os) = Ok bal
  ↔ ∃ spendable incoming,
      Balance (SpendableOutputs os) = Ok spendable
      ∧ Balance (ReadableOutputSet.IncomingOutputs os) = Ok incoming
      ∧ wallet.Balance.Coins bal
        = wallet.Balance.Coins spendable + wallet.Balance.Coins incoming
      ∧ wallet.Balance.Hours bal
        = wallet.Balance.Hours spendable + wallet.Balance.Hours incoming
      ∧ wallet.Balance.Coins bal ≤ MaxUint64
      ∧ wallet.Balance.Hours bal ≤ MaxUint64.
Proof. unfold ExpectedOutputs. apply Balance_app. Qed.

End Balances.

(** ** Coins by address *)

Lemma map_total_insert_None (m : gmap string uint64) (a : string) (v : uint64) :
  m !! a = None → map_total (<[a := v]> m) = v + map_total m.
Proof.
  intros Hnone. unfold map_total.
  rewrite map_fold_insert_L; [done| |done].
  intros; lia.
Qed.

Lemma map_total_lookup (m : gmap string uint64) (a : string) (v : uint64) :
  m !! a = Some v → map_total m = v + map_total (delete a m).
Proof.
  intros Hsome. unfold map_total.
  rewrite (map_fold_delete_L _ _ a v m); [done| |done].
  intros; lia.
Qed.

Lemma map_total_insert_Some (m : gmap string uint64) (a : string)
  (cur v : uint64) :
  m !! a = Some cur → map_total (<[a := v]> m) + cur = v + map_total m.
Proof.
  intros Hsome. rewrite <- insert_delete_eq.
  rewrite map_total_insert_None by apply lookup_delete_eq.
  rewrite (map_total_lookup m a cur Hsome). lia.
Qed.

Section Aggregate.
Context `{Collaborators}.

Lemma address_total_nil (addr : string) : address_total addr [] = 0.
Proof. reflexivity. Qed.

Lemma address_total_cons (addr : string) (out : ReadableOutput.t)
  (rest : ReadableOutputs) (amt : uint64) :
  droplet_FromString (ReadableOutput.Coins out) = Ok amt →
  address_total addr (out :: rest)
  = (if decide (ReadableOutput.Address out = addr) then amt else 0)
    + address_total addr rest.
Proof.
  intros Hamt. unfold address_total. rewrite filter_cons.
  destruct (decide (ReadableOutput.Address out = addr)); [|done].
  cbn [omap list_omap]. unfold decoded at 1. rewrite Hamt.
  by rewrite N_sum_cons.
Qed.

Lemma decoded_traverse (outs : ReadableOutputs) (cs : list uint64) :
  traverse droplet_FromString (ReadableOutput.Coins <$> outs) = Ok cs →
  omap decoded outs = cs.
Proof.
  revert cs. induction outs as [|out outs IH]; intros cs.
  - by intros [= <-].
  - rewrite fmap_cons. cbn [traverse omap list_omap]. unfold decoded at 1.
    destruct (droplet_FromString _) as [c|]; [|done].
    destruct (traverse _ _) as [cs'|]; [|done]. intros [= <-].
    f_equal. by apply IH.
Qed.

(** One turn of the loop, without unfolding the map operations. *)
Ltac aggregate_step :=
  cbn [AggregateUnspentOutputs_from mbind result_bind]; unfold uint64 in *.

Lemma AggregateUnspentOutputs_from_lookup (outs : ReadableOutputs)
  (acc m : gmap string uint64) :
  AggregateUnspentOutputs_from acc outs = Ok m →
  ∀ addr,
    m !! addr
    = match acc !! addr with
      | Some v => Some (v + address_total addr outs)
      | None =>
          if decide (addr ∈ ReadableOutput.Address <$> outs)
          then Some (address_total addr outs)
          else None
      end.
Proof.
  revert acc. induction outs as [|out outs IH]; intros acc.
  - intros [= <-] addr. rewrite address_total_nil.
    destruct (acc !! addr); [f_equal; lia|].
    by rewrite decide_False by apply not_elem_of_nil.
  - aggregate_step.
    destruct (droplet_FromString (ReadableOutput.Coins out)) as [amt|] eqn:Hamt;
      aggregate_step; [|done].
    destruct (acc !! ReadableOutput.Address out) as [cur|] eqn:Hcur.
    + unfold coin.AddUint64.
      destruct (N.leb_spec (cur + amt) MaxUint64); aggregate_step; [|done].
      intros Hm addr. rewrite (IH _ Hm addr), (address_total_cons _ _ _ amt Hamt).
      destruct (decide (ReadableOutput.Address out = addr)) as [<-|Hne].
      * rewrite lookup_insert_eq, Hcur. f_equal. lia.
      * rewrite lookup_insert_ne by done.
        destruct (acc !! addr); [done|].
        rewrite fmap_cons. apply option_eq. intros v.
        destruct (decide (addr ∈ _ <$> outs)) as [Hin|Hnin].
        -- rewrite decide_True by (by right). done.
        -- rewrite decide_False; [done|].
           rewrite elem_of_cons. intros [->|?]; done.
    + intros Hm addr. rewrite (IH _ Hm addr), (address_total_cons _ _ _ amt Hamt).
      destruct (decide (ReadableOutput.Address out = addr)) as [<-|Hne].
      * rewrite lookup_insert_eq, Hcur, fmap_cons.
        by rewrite decide_True by (by left).
      * rewrite lookup_insert_ne by done.
        destruct (acc !! addr); [done|].
        rewrite fmap_cons.
        destruct (decide (addr ∈ _ <$> outs)) as [Hin|Hnin].
        -- rewrite decide_True by (by right). done.
        -- rewrite decide_False; [done|].
           rewrite elem_of_cons. intros [->|?]; done.
Qed.

(** X6. A map [AggregateUnspentOutputs] returns has exactly the addresses of
    the head outputs as its keys, and under each address the sum of the
    coins of the head outputs of that address. *)
Theorem AggregateUnspentOutputs_lookup (os : ReadableOutputSet.t)
  (m : gmap string uint64) :
  AggregateUnspentOutputs os = Ok m →
  ∀ addr,
    m !! addr
    = if decide (addr ∈ ReadableOutput.Address
                        <$> ReadableOutputSet.HeadOutputs os)
      then Some (address_total addr (ReadableOutputSet.HeadOutputs os))
      else None.
Proof.
  intros Hm addr.
  rewrite (AggregateUnspentOutputs_from_lookup _ _ _ Hm addr).
  by rewrite lookup_empty.
Qed.

Lemma AggregateUnspentOutputs_from_fits (outs : ReadableOutputs)
  (acc : gmap string uint64) (cs : list uint64) :
  traverse droplet_FromString (ReadableOutput.Coins <$> outs) = Ok cs →
  map_total acc + N_sum cs ≤ MaxUint64 →
  ∃ m, AggregateUnspentOutputs_from acc outs = Ok m
       ∧ map_total m = map_total acc + N_sum cs.
Proof.
  revert acc cs. induction outs as [|out outs IH]; intros acc cs.
  - intros [= <-] _. exists acc. split; [done|]. simpl. lia.
  - rewrite fmap_cons. cbn [traverse]. aggregate_step.
    destruct (droplet_FromString (ReadableOutput.Coins out)) as [amt|];
      aggregate_step; [|done].
    destruct (traverse _ _) as [cs'|] eqn:Hcs'; [|done].
    intros [= <-]. rewrite N_sum_cons. intros Hfits.
    destruct (acc !! ReadableOutput.Address out) as [cur|] eqn:Hcur.
    + pose proof (map_total_lookup _ _ _ Hcur) as Hle.
      unfold uint64 in *.
      pose proof (map_total_insert_Some acc _ cur (cur + amt) Hcur) as Hins.
      unfold uint64 in *.
      unfold coin.AddUint64.
      destruct (N.leb_spec (cur + amt) MaxUint64); [|lia]. aggregate_step.
      destruct (IH (<[ReadableOutput.Address out := cur + amt]> acc) cs')
        as (m & Hm & Htotal); [done|lia|].
      exists m. split; [done|]. lia.
    + pose proof (map_total_insert_None acc _ amt Hcur) as Hins.
      unfold uint64 in *.
      destruct (IH (<[ReadableOutput.Address out := amt]> acc) cs')
        as (m & Hm & Htotal); [done|lia|].
      exists m. split; [done|]. lia.
Qed.

Lemma AggregateUnspentOutputs_from_total (outs : ReadableOutputs)
  (acc m : gmap string uint64) :
  AggregateUnspentOutputs_from acc outs = Ok m →
  map_total m = map_total acc + N_sum (omap decoded outs).
Proof.
  revert acc. induction outs as [|out outs IH]; intros acc.
  - intros [= <-]. simpl. lia.
  - aggregate_step. cbn [omap list_omap]. unfold decoded at 1.
    destruct (droplet_FromString (ReadableOutput.Coins out)) as [amt|];
      aggregate_step; [|done].
    rewrite N_sum_cons.
    destruct (acc !! ReadableOutput.Address out) as [cur|] eqn:Hcur.
    + pose proof (map_total_insert_Some acc _ cur (cur + amt) Hcur) as Hins.
      unfold uint64 in *.
      unfold coin.AddUint64.
      destruct (N.leb_spec (cur + amt) MaxUint64); aggregate_step; [|done].
      intros Hm%IH. lia.
    + pose proof (map_total_insert_None acc _ amt Hcur) as Hins.
      unfold uint64 in *.
      intros Hm%IH. lia.
Qed.

(** X7. Aggregation conserves coins: the values of a returned map add up to
    the coins of all head outputs; and whenever [Balance] of the head
    outputs returns a balance, [AggregateUnspentOutputs] returns a map, whose
    values add up to the coins of that balance. *)
Theorem AggregateUnspentOutputs_conserves (os : ReadableOutputSet.t) :
  (∀ m, AggregateUnspentOutputs os = Ok m →
        map_total m
        = N_sum (omap decoded (ReadableOutputSet.HeadOutputs os)))
  ∧ (∀ bal, Balance (ReadableOutputSet.HeadOutputs os) = Ok bal →
            ∃ m, AggregateUnspentOutputs os = Ok m
                 ∧ map_total m = wallet.Balance.Coins bal).
Proof.
  unfold AggregateUnspentOutputs. split.
  - intros m Hm%AggregateUnspentOutputs_from_total.
    rewrite Hm. unfold map_total. rewrite map_fold_empty. lia.
  - intros bal (cs & Hcs & Hc & _ & Hcb & _)%Balance_Ok_iff.
    destruct (AggregateUnspentOutputs_from_fits
                (ReadableOutputSet.HeadOutputs os) ∅ cs)
      as (m & Hm & Htotal); [done| |].
    + unfold map_total. rewrite map_fold_empty. lia.
    + exists m. split; [done|]. rewrite Htotal, Hc.
      unfold map_total. rewrite map_fold_empty. lia.
Qed.

Lemma AggregateUnspentOutputs_from_is_Ok (outs : ReadableOutputs)
  (acc : gmap string uint64) :
  (∀ s v, droplet_FromString s = Ok v → v ≤ MaxUint64) →
  (∀ a v, acc !! a = Some v → v ≤ MaxUint64) →
  is_Ok (AggregateUnspentOutputs_from acc outs)
  ↔ Forall (fun o => is_Ok (droplet_FromString (ReadableOutput.Coins o))) outs
    ∧ ∀ addr, default 0 (acc !! addr) + address_total addr outs ≤ MaxUint64.
Proof.
  intros Hrange. revert acc. induction outs as [|out outs IH]; intros acc Hacc.
  - simpl. split; [|done]. intros _. split; [constructor|].
    intros addr. rewrite address_total_nil.
    destruct (acc !! addr) as [v|] eqn:Hv; simpl.
    + apply Hacc in Hv. lia.
    + unfold MaxUint64. lia.
  - aggregate_step. rewrite Forall_cons.
    destruct (droplet_FromString (ReadableOutput.Coins out)) as [amt|] eqn:Hamt;
      aggregate_step; [|simpl; tauto].
    pose proof (Hrange _ _ Hamt) as Hamt_le.
    assert (∀ addr,
              address_total addr (out :: outs)
              = (if decide (ReadableOutput.Address out = addr)
                 then amt else 0) + address_total addr outs) as Hcons
      by (intros addr; by apply address_total_cons).
    destruct (acc !! ReadableOutput.Address out) as [cur|] eqn:Hcur.
    + unfold coin.AddUint64.
      destruct (N.leb_spec (cur + amt) MaxUint64) as [Hfit|Hover];
        aggregate_step.
      * rewrite IH.
        -- simpl. split; intros [Hall Hsum]; (split; [tauto|]);
             intros addr; specialize (Hsum addr); rewrite Hcons in *;
             destruct (decide (ReadableOutput.Address out = addr)) as [<-|Hne];
             rewrite ?lookup_insert_eq, ?lookup_insert_ne, ?Hcur in * by done;
             simpl in *; lia.
        -- intros a v. destruct (decide (ReadableOutput.Address out = a))
             as [<-|Hne].
           ++ rewrite lookup_insert_eq. intros [= <-]. done.
           ++ rewrite lookup_insert_ne by done. apply Hacc.
      * simpl. split; [done|]. intros [_ Hsum].
        specialize (Hsum (ReadableOutput.Address out)).
        rewrite Hcons, Hcur, decide_True in Hsum by done. simpl in Hsum. lia.
    + rewrite IH.
      * simpl. split; intros [Hall Hsum]; (split; [tauto|]);
          intros addr; specialize (Hsum addr); rewrite Hcons in *;
          destruct (decide (ReadableOutput.Address out = addr)) as [<-|Hne];
          rewrite ?lookup_insert_eq, ?lookup_insert_ne, ?Hcur in * by done;
          simpl in *; lia.
      * intros a v. destruct (decide (ReadableOutput.Address out = a))
          as [<-|Hne].
        -- rewrite lookup_insert_eq. intros [= <-]. done.
        -- rewrite lookup_insert_ne by done. apply Hacc.
Qed.

(** X8. With an amount decoder that yields 64-bit values,
    [AggregateUnspentOutputs] returns a map exactly when every amount of the
    head outputs decodes and the coins of every single address add up
    within 64 bits; otherwise it returns an error and no map. The total
    over all addresses is not bounded: the first amount of an address is
    stored unchecked. *)
Theorem AggregateUnspentOutputs_succeeds_iff (os : ReadableOutputSet.t) :
  (∀ s v, droplet_FromString s = Ok v → v ≤ MaxUint64) →
  is_Ok (AggregateUnspentOutputs os)
  ↔ Forall (fun o => is_Ok (droplet_FromString (ReadableOutput.Coins o)))
      (ReadableOutputSet.HeadOutputs os)
    ∧ ∀ addr, address_total addr (ReadableOutputSet.HeadOutputs os)
              ≤ MaxUint64.
Proof.
  intros Hrange. unfold AggregateUnspentOutputs.
  rewrite AggregateUnspentOutputs_from_is_Ok; [|done|].
  - split; intros [Hall Hsum]; (split; [done|]); intros addr;
      specialize (Hsum addr); rewrite lookup_empty in *; simpl in *; lia.
  - intros a v. by rewrite lookup_empty.
Qed.

End Aggregate.

(** ** Batches of outputs, both ways *)

Section Batches.
Context `{Collaborators}.

Lemma ToUxArray_from_traverse (acc : coin.UxArray) (ros : ReadableOutputs) :
  ToUxArray_from acc ros
  = match traverse ReadableOutputToUxOut ros with
    | Ok uxs => Ok (acc ++ uxs)
    | Err e => Err e
    end.
Proof.
  revert acc. induction ros as [|o ros IH]; intros acc.
  - simpl. by rewrite app_nil_r.
  - cbn [ToUxArray_from traverse]. unfold ReadableOutputToUxOut at 1.
    destruct (droplet_FromString _) as [coins|]; [|done].
    destruct (DecodeBase58Address _) as [addr|]; [|done].
    destruct (SHA256FromHex _) as [srcTx|]; [|done].
    cbn [mbind result_bind]. rewrite IH.
    destruct (traverse _ ros); [|done]. by rewrite <- app_assoc.
Qed.

Lemma ToUxArray_traverse (ros : ReadableOutputs) :
  ToUxArray ros = traverse ReadableOutputToUxOut ros.
Proof.
  unfold ToUxArray. rewrite ToUxArray_from_traverse.
  by destruct (traverse _ ros).
Qed.

Lemma ToUxArray_one (o : ReadableOutput.t) (ux : coin.UxOut.t) :
  ToUxArray [o] = Ok [ux] ↔ ReadableOutputToUxOut o = Ok ux.
Proof.
  rewrite ToUxArray_traverse. simpl.
  destruct (ReadableOutputToUxOut o); split; congruence.
Qed.

(** X9. [ToUxArray] converts output by output, in order, all or nothing: it
    returns a list exactly when each output converts on its own, to the
    element at the same place; a list of outputs joined from two converts
    to the two results joined; and the first output that does not convert
    decides the error. *)
Theorem ToUxArray_pointwise (ros : ReadableOutputs) :
  (∀ uxs, ToUxArray ros = Ok uxs
          ↔ Forall2 (fun o ux => ToUxArray [o] = Ok [ux]) ros uxs)
  ∧ (∀ ros1 ros2 uxs1 uxs2,
       ros = ros1 ++ ros2 →
       ToUxArray ros1 = Ok uxs1 → ToUxArray ros2 = Ok uxs2 →
       ToUxArray ros = Ok (uxs1 ++ uxs2))
  ∧ (∀ pre o post e,
       ros = pre ++ o :: post →
       is_Ok (ToUxArray pre) → ToUxArray [o] = Err e →
       ToUxArray ros = Err e).
Proof.
  split; [|split].
  - intros uxs. rewrite ToUxArray_traverse, traverse_Ok_Forall2.
    split; intros Hall; eapply Forall2_impl; try exact Hall;
      intros o ux; by rewrite ToUxArray_one.
  - intros ros1 ros2 uxs1 uxs2 ->. rewrite !ToUxArray_traverse, traverse_app.
    by intros -> ->.
  - intros pre o post e ->. rewrite !ToUxArray_traverse.
    intros Hpre Ho. apply (proj1 (traverse_is_Ok _ _)) in Hpre.
    apply traverse_first_error; [done|].
    cbn [traverse] in Ho. destruct (ReadableOutputToUxOut o); [done|].
    by injection Ho as ->.
Qed.

(** X10. [ToUxArray] reads neither the hash nor the calculated hours of a
    readable output: two lists that agree on the other six fields of every
    output give the same result, error or list. *)
Theorem ToUxArray_ignores_hash (ros ros' : ReadableOutputs) :
  Forall2 (fun a b =>
             ReadableOutput.Time a = ReadableOutput.Time b
             ∧ ReadableOutput.BkSeq a = ReadableOutput.BkSeq b
             ∧ ReadableOutput.SourceTransaction a
               = ReadableOutput.SourceTransaction b
             ∧ ReadableOutput.Address a = ReadableOutput.Address b
             ∧ ReadableOutput.Coins a = ReadableOutput.Coins b
             ∧ ReadableOutput.Hours a = ReadableOutput.Hours b) ros ros' →
  ToUxArray ros = ToUxArray ros'.
Proof.
  rewrite !ToUxArray_traverse.
  induction 1 as [|a b ros ros' (Ht & Hs & Hsrc & Ha & Hc & Hh) _ IH];
    [done|].
  cbn [traverse]. rewrite IH. unfold ReadableOutputToUxOut.
  by rewrite Ht, Hs, Hsrc, Ha, Hc, Hh.
Qed.

Lemma NewReadableOutput_ToUxOut (headTime : uint64) (ux : coin.UxOut.t)
  (ro : ReadableOutput.t) :
  NewReadableOutput headTime ux = Ok ro →
  (∀ coinStr,
     droplet_ToString (coin.UxBody.Coins (coin.UxOut.Body ux)) = Ok coinStr →
     droplet_FromString coinStr = Ok (coin.UxBody.Coins (coin.UxOut.Body ux))) →
  DecodeBase58Address
    (Address_String (coin.UxBody.Address (coin.UxOut.Body ux)))
  = Ok (coin.UxBody.Address (coin.UxOut.Body ux)) →
  SHA256FromHex (SHA256_Hex (coin.UxBody.SrcTransaction (coin.UxOut.Body ux)))
  = Ok (coin.UxBody.SrcTransaction (coin.UxOut.Body ux)) →
  ReadableOutputToUxOut ro = Ok ux.
Proof.
  intros Hro Hcoins Haddr Hsrc.
  apply NewReadableOutput_inv in Hro
    as (Hc & _ & _ & Htime & Hseq & Hst & Ha & Hh).
  apply Hcoins in Hc. unfold ReadableOutputToUxOut.
  rewrite Hc, Ha, Haddr, Hst, Hsrc, Htime, Hseq, Hh. simpl.
  by destruct ux as [[] []].
Qed.

(** X11. [NewReadableOutputs] returns no partial batch: it returns a list
    exactly when every output converts on its own, and the first output
    that does not convert decides the error, before anything is sorted. *)
Theorem NewReadableOutputs_all_or_nothing (headTime : uint64)
  (uxs : coin.UxArray) :
  (is_Ok (NewReadableOutputs headTime uxs)
   ↔ Forall (fun ux => is_Ok (NewReadableOutput headTime ux)) uxs)
  ∧ (∀ pre ux post e,
       uxs = pre ++ ux :: post →
       Forall (fun ux => is_Ok (NewReadableOutput headTime ux)) pre →
       NewReadableOutput headTime ux = Err e →
       NewReadableOutputs headTime uxs = Err e).
Proof.
  rewrite NewReadableOutputs_traverse. split.
  - rewrite <- traverse_is_Ok. by destruct (traverse _ uxs).
  - intros pre ux post e -> Hpre Hux.
    by rewrite (traverse_first_error _ pre post ux e).
Qed.

(** X12. A batch survives the round trip up to order. When the codecs decode
    what they encoded for the outputs of the batch and [sort.Slice]
    permutes, the readable outputs [NewReadableOutputs] returns go back
    through [ToUxArray] to a permutation of the batch. *)
Theorem NewReadableOutputs_ToUxArray_roundtrip (headTime : uint64)
  (uxs : coin.UxArray) (ros : ReadableOutputs) :
  SortContract sort_Slice →
  NewReadableOutputs headTime uxs = Ok ros →
  (∀ ux coinStr, ux ∈ uxs →
     droplet_ToString (coin.UxBody.Coins (coin.UxOut.Body ux)) = Ok coinStr →
     droplet_FromString coinStr = Ok (coin.UxBody.Coins (coin.UxOut.Body ux))) →
  (∀ ux, ux ∈ uxs →
     DecodeBase58Address
       (Address_String (coin.UxBody.Address (coin.UxOut.Body ux)))
     = Ok (coin.UxBody.Address (coin.UxOut.Body ux))) →
  (∀ ux, ux ∈ uxs →
     SHA256FromHex
       (SHA256_Hex (coin.UxBody.SrcTransaction (coin.UxOut.Body ux)))
     = Ok (coin.UxBody.SrcTransaction (coin.UxOut.Body ux))) →
  ∃ uxs', ToUxArray ros = Ok uxs' ∧ uxs' ≡ₚ uxs.
Proof.
  intros Hsort Hros Hcoins Haddr Hsrc.
  rewrite NewReadableOutputs_traverse in Hros.
  destruct (traverse _ uxs) as [ros0|] eqn:Hros0; [|done].
  injection Hros as <-.
  assert (traverse ReadableOutputToUxOut ros0 = Ok uxs) as Hback.
  { apply traverse_Ok_Forall2 in Hros0. apply traverse_Ok_Forall2.
    clear Hsort. induction Hros0 as [|ux ro uxs ros0 Hro _ IH];
      [constructor|].
    constructor.
    - apply (NewReadableOutput_ToUxOut headTime); [done|..].
      + intros coinStr. apply Hcoins. by left.
      + apply Haddr. by left.
      + apply Hsrc. by left.
    - apply IH; intros; [apply Hcoins|apply Haddr|apply Hsrc];
        try done; by right. }
  destruct (traverse_Permutation ReadableOutputToUxOut ros0
              (sort_Slice output_less ros0) uxs)
    as (uxs' & Huxs' & Hperm); [apply (sort_permutes _ Hsort)|done|].
  exists uxs'. by rewrite ToUxArray_traverse.
Qed.

End Batches.

(** ** Wallet balances of readable outputs *)

Section Wrapping.
Context `{BlockCollaborators}.

Lemma wrap_Ok {A} (prefix : string) (r : result A) (a : A) :
  wrap prefix r = Ok a ↔ r = Ok a.
Proof. destruct r; simpl; split; congruence. Qed.

Lemma wrap_Err {A} (prefix : string) (r : result A) (e : error) :
  wrap prefix r = Err e ↔ ∃ e', r = Err e' ∧ e = fmt_Errorf prefix e'.
Proof.
  destruct r as [a|e']; simpl; split.
  - done.
  - by intros (? & ? & _).
  - intros [= <-]. eauto.
  - intros (? & [= <-] & ->). done.
Qed.

End Wrapping.

Section UxBalances.
Context `{Collaborators} `{BlockCollaborators}.

Lemma ReadableOutputsToUxBalances_traverse (ros : ReadableOutputs) :
  ReadableOutputsToUxBalances ros = traverse ReadableOutputToUxBalance ros.
Proof. apply fill_each_traverse. Qed.

Lemma ReadableOutputToUxBalance_inv (ro : ReadableOutput.t) (b : UxBalance.t) :
  ReadableOutputToUxBalance ro = Ok b
  ↔ ReadableOutput.Hash ro ≠ ""
    ∧ SHA256FromHex (ReadableOutput.Hash ro) = Ok (UxBalance.Hash b)
    ∧ droplet_FromString (ReadableOutput.Coins ro) = Ok (UxBalance.Coins b)
    ∧ DecodeBase58Address (ReadableOutput.Address ro)
      = Ok (UxBalance.Address b)
    ∧ SHA256FromHex (ReadableOutput.SourceTransaction ro)
      = Ok (UxBalance.SrcTransaction b)
    ∧ UxBalance.Time b = ReadableOutput.Time ro
    ∧ UxBalance.BkSeq b = ReadableOutput.BkSeq ro
    ∧ UxBalance.Hours b = ReadableOutput.CalculatedHours ro
    ∧ UxBalance.InitialHours b = ReadableOutput.Hours ro.
Proof.
  unfold ReadableOutputToUxBalance.
  destruct (decide (ReadableOutput.Hash ro = "")) as [Hempty|Hhash].
  { split; [done|]. by intros [? _]. }
  destruct (SHA256FromHex (ReadableOutput.Hash ro)) as [hash|];
    [|split; [done|by intros (_ & ? & _)]].
  destruct (droplet_FromString _) as [coins|];
    [|split; [done|by intros (_ & _ & ? & _)]].
  destruct (DecodeBase58Address _) as [addr|];
    [|split; [done|by intros (_ & _ & _ & ? & _)]].
  destruct (SHA256FromHex (ReadableOutput.SourceTransaction ro)) as [srcTx|];
    [|split; [done|by intros (_ & _ & _ & _ & ? & _)]].
  simpl. split.
  - intros [= <-]. simpl. done.
  - intros (_ & [= ->] & [= ->] & [= ->] & [= ->] & Ht & Hs & Hh & Hi).
    destruct b. simpl in *. by subst.
Qed.

(** X13. An output without a hash stops [ReadableOutputsToUxBalances]: when
    the outputs before it convert, the result is the error "ReadableOutput
    missing hash", whatever the hash decoder makes of the empty string and
    whatever follows. *)
Theorem ReadableOutputsToUxBalances_missing_hash
  (pre post : ReadableOutputs) (ro : ReadableOutput.t) :
  is_Ok (ReadableOutputsToUxBalances pre) →
  ReadableOutput.Hash ro = "" →
  ReadableOutputsToUxBalances (pre ++ ro :: post)
  = Err (errors_New "ReadableOutput missing hash").
Proof.
  rewrite !ReadableOutputsToUxBalances_traverse. intros Hpre Hhash.
  apply traverse_first_error; [by apply traverse_is_Ok|].
  unfold ReadableOutputToUxBalance. by rewrite decide_True.
Qed.

(** X14. Every error of [ReadableOutputsToUxBalances] is a new error that
    names the field of one of the outputs: the missing hash, or the message
    of the decoder behind the name of the field it refused. No decoder
    error is returned as it is. *)
Theorem ReadableOutputsToUxBalances_error (ros : ReadableOutputs) (e : error) :
  ReadableOutputsToUxBalances ros = Err e →
  ∃ ro, ro ∈ ros
    ∧ ((ReadableOutput.Hash ro = ""
        ∧ e = errors_New "ReadableOutput missing hash")
       ∨ (∃ e', SHA256FromHex (ReadableOutput.Hash ro) = Err e'
                ∧ e = errors_New ("ReadableOutput hash is invalid: "
                                  ++ error_Error e'))
       ∨ (∃ e', droplet_FromString (ReadableOutput.Coins ro) = Err e'
                ∧ e = errors_New ("ReadableOutput coins is invalid: "
                                  ++ error_Error e'))
       ∨ (∃ e', DecodeBase58Address (ReadableOutput.Address ro) = Err e'
                ∧ e = errors_New ("ReadableOutput address is invalid: "
                                  ++ error_Error e'))
       ∨ (∃ e', SHA256FromHex (ReadableOutput.SourceTransaction ro) = Err e'
                ∧ e = errors_New ("ReadableOutput src_tx is invalid: "
                                  ++ error_Error e'))).
Proof.
  rewrite ReadableOutputsToUxBalances_traverse.
  intros (ro & Hin & Hro)%traverse_Err_elem. exists ro. split; [done|].
  unfold ReadableOutputToUxBalance in Hro.
  destruct (decide (ReadableOutput.Hash ro = "")) as [Hempty|_].
  { left. split; [done|]. by injection Hro as <-. }
  right.
  destruct (SHA256FromHex (ReadableOutput.Hash ro)) as [hash|e1].
  2:{ left. exists e1. split; [done|]. by injection Hro as <-. }
  right.
  destruct (droplet_FromString _) as [coins|e2].
  2:{ left. exists e2. split; [done|]. by injection Hro as <-. }
  right.
  destruct (DecodeBase58Address _) as [addr|e3].
  2:{ left. exists e3. split; [done|]. by injection Hro as <-. }
  right.
  destruct (SHA256FromHex (ReadableOutput.SourceTransaction ro)) as [srcTx|e4].
  2:{ exists e4. split; [done|]. by injection Hro as <-. }
  done.
Qed.

(** X15. What [ReadableOutputsToUxBalances] converts, [ToUxArray] converts
    too, and the two agree output by output on time, block sequence, source
    transaction, address and coins. The hours differ in name: the balance
    entry has the calculated hours as its hours and the declared hours of
    the output as its initial hours, the unspent output has the declared
    hours as its hours. *)
Theorem ReadableOutputsToUxBalances_agrees_ToUxArray (ros : ReadableOutputs)
  (uxb : list UxBalance.t) :
  ReadableOutputsToUxBalances ros = Ok uxb →
  ∃ uxs, ToUxArray ros = Ok uxs
    ∧ Forall2 (fun b ux =>
                 UxBalance.Time b = coin.UxHead.Time (coin.UxOut.Head ux)
                 ∧ UxBalance.BkSeq b = coin.UxHead.BkSeq (coin.UxOut.Head ux)
                 ∧ UxBalance.SrcTransaction b
                   = coin.UxBody.SrcTransaction (coin.UxOut.Body ux)
                 ∧ UxBalance.Address b
                   = coin.UxBody.Address (coin.UxOut.Body ux)
                 ∧ UxBalance.Coins b = coin.UxBody.Coins (coin.UxOut.Body ux)
                 ∧ UxBalance.InitialHours b
                   = coin.UxBody.Hours (coin.UxOut.Body ux)) uxb uxs
    ∧ Forall2 (fun ro b =>
                 UxBalance.Hours b = ReadableOutput.CalculatedHours ro
                 ∧ UxBalance.InitialHours b = ReadableOutput.Hours ro) ros uxb.
Proof.
  rewrite ReadableOutputsToUxBalances_traverse, traverse_Ok_Forall2.
  setoid_rewrite ToUxArray_traverse.
  induction 1 as [|ro b ros uxb Hb _ (uxs & Huxs & Hagree & Hhours)].
  - exists []. split; [done|]. split; constructor.
  - apply ReadableOutputToUxBalance_inv in Hb
      as (_ & _ & Hc & Ha & Hs & Ht & Hq & Hh & Hi).
    eexists (_ :: uxs). cbn [traverse]. rewrite Huxs.
    unfold ReadableOutputToUxOut. rewrite Hc, Ha, Hs. simpl.
    split; [done|]. split; constructor; simpl; done.
Qed.

(** X16. An unspent output that [NewReadableOutput] converts comes back from
    [ReadableOutputsToUxBalances] as the balance entry of that output: its
    hash, time, block sequence, source transaction, address and coins, the
    calculated hours as hours and the declared hours as initial hours. Asked
    of the codecs: they decode what they encoded for this output, and the
    hex form of its hash is not empty. *)
Theorem NewReadableOutput_ToUxBalance_roundtrip (headTime : uint64)
  (ux : coin.UxOut.t) (ro : ReadableOutput.t) :
  NewReadableOutput headTime ux = Ok ro →
  SHA256_Hex (UxOut_Hash ux) ≠ "" →
  SHA256FromHex (SHA256_Hex (UxOut_Hash ux)) = Ok (UxOut_Hash ux) →
  (∀ coinStr,
     droplet_ToString (coin.UxBody.Coins (coin.UxOut.Body ux)) = Ok coinStr →
     droplet_FromString coinStr = Ok (coin.UxBody.Coins (coin.UxOut.Body ux))) →
  DecodeBase58Address
    (Address_String (coin.UxBody.Address (coin.UxOut.Body ux)))
  = Ok (coin.UxBody.Address (coin.UxOut.Body ux)) →
  SHA256FromHex (SHA256_Hex (coin.UxBody.SrcTransaction (coin.UxOut.Body ux)))
  = Ok (coin.UxBody.SrcTransaction (coin.UxOut.Body ux)) →
  ReadableOutputsToUxBalances [ro]
  = Ok [ {| UxBalance.Hash := UxOut_Hash ux;
            UxBalance.Time := coin.UxHead.Time (coin.UxOut.Head ux);
            UxBalance.BkSeq := coin.UxHead.BkSeq (coin.UxOut.Head ux);
            UxBalance.SrcTransaction :=
              coin.UxBody.SrcTransaction (coin.UxOut.Body ux);
            UxBalance.Address := coin.UxBody.Address (coin.UxOut.Body ux);
            UxBalance.Coins := coin.UxBody.Coins (coin.UxOut.Body ux);
            UxBalance.Hours := ReadableOutput.CalculatedHours ro;
            UxBalance.InitialHours :=
              coin.UxBody.Hours (coin.UxOut.Body ux) |} ].
Proof.
  intros Hro Hne Hhash Hcoins Haddr Hsrc.
  apply NewReadableOutput_inv in Hro
    as (Hc & _ & Hh & Htime & Hseq & Hst & Ha & Hhours).
  apply Hcoins in Hc.
  rewrite ReadableOutputsToUxBalances_traverse. cbn [traverse].
  match goal with
  | |- _ = Ok [?b] => assert (ReadableOutputToUxBalance ro = Ok b) as ->
  end; [|done].
  apply ReadableOutputToUxBalance_inv. simpl.
  rewrite Hh, Hc, Ha, Hst, Htime, Hseq, Hhours. done.
Qed.

End UxBalances.

(** ** Transactions, blocks and the pool *)

(** X17. A status either constructor returns is exactly one of unconfirmed
    and confirmed, and it is the unconfirmed one exactly when its height
    is 0. *)
Theorem TransactionStatus_exclusive (s : TransactionStatus.t) :
  s = NewUnconfirmedTransactionStatus
  ∨ (∃ height blockSeq,
       NewConfirmedTransactionStatus height blockSeq = Returned s) →
  TransactionStatus.Confirmed s = negb (TransactionStatus.Unconfirmed s)
  ∧ (TransactionStatus.Unconfirmed s = true ↔ TransactionStatus.Height s = 0).
Proof.
  intros [->|(height & blockSeq & Hs)]; [done|].
  unfold NewConfirmedTransactionStatus, logger_Panic in Hs.
  destruct (N.eqb_spec height 0) as [|Hne]; [done|].
  injection Hs as <-. simpl. split; [done|]. split; [done|]. by intros ->.
Qed.

Lemma append_each_traverse {A B} (f : A → result B) (xs : list A)
  (dst : list B) :
  append_each f xs dst
  = match traverse f xs with
    | Ok ys => Ok (dst ++ ys)
    | Err e => Err e
    end.
Proof.
  revert dst. induction xs as [|x xs IH]; intros dst; simpl.
  - by rewrite app_nil_r.
  - destruct (f x); [|done]. rewrite IH.
    destruct (traverse f xs); [|done]. by rewrite <- app_assoc.
Qed.

Section Transactions.
Context `{Collaborators} `{BlockCollaborators}.

Lemma NewReadableTransactionOutput_is_Ok (o : coin.TransactionOutput.t)
  (txid : cipher.SHA256) :
  is_Ok (NewReadableTransactionOutput o txid)
  ↔ is_Ok (droplet_ToString (coin.TransactionOutput.Coins o)).
Proof.
  unfold NewReadableTransactionOutput. by destruct (droplet_ToString _).
Qed.

Lemma NewReadableTransactionOutput_inv (o : coin.TransactionOutput.t)
  (txid : cipher.SHA256) (r : ReadableTransactionOutput.t) :
  NewReadableTransactionOutput o txid = Ok r →
  droplet_ToString (coin.TransactionOutput.Coins o)
  = Ok (ReadableTransactionOutput.Coins r)
  ∧ ReadableTransactionOutput.Hash r
    = SHA256_Hex (TransactionOutput_UxID o txid)
  ∧ ReadableTransactionOutput.Address r
    = Address_String (coin.TransactionOutput.Address o)
  ∧ ReadableTransactionOutput.Hours r = coin.TransactionOutput.Hours o.
Proof.
  unfold NewReadableTransactionOutput.
  destruct (droplet_ToString _); [|done]. by intros [= <-].
Qed.

(** The guard of [NewReadableTransaction]. *)
Lemma confirmed_without_inputs (t : Transaction.t) :
  negb (TransactionStatus.BlockSeq (Transaction.Status t) =? 0)
  && TransactionStatus.Confirmed (Transaction.Status t)
  && (length (coin.Transaction.In (Transaction.Txn t)) =? 0)%nat = true
  ↔ TransactionStatus.BlockSeq (Transaction.Status t) ≠ 0
    ∧ TransactionStatus.Confirmed (Transaction.Status t) = true
    ∧ coin.Transaction.In (Transaction.Txn t) = [].
Proof.
  rewrite !andb_true_iff, negb_true_iff, N.eqb_neq, Nat.eqb_eq.
  rewrite length_zero_iff_nil. tauto.
Qed.

Lemma NewReadableTransaction_is_Ok (t : Transaction.t) :
  is_Ok (NewReadableTransaction t)
  ↔ ¬ (TransactionStatus.BlockSeq (Transaction.Status t) ≠ 0
       ∧ TransactionStatus.Confirmed (Transaction.Status t) = true
       ∧ coin.Transaction.In (Transaction.Txn t) = [])
    ∧ Forall (fun o => is_Ok (droplet_ToString (coin.TransactionOutput.Coins o)))
        (coin.Transaction.Out (Transaction.Txn t)).
Proof.
  rewrite <- confirmed_without_inputs. unfold NewReadableTransaction.
  destruct (_ && _ && _); [simpl; split; [done|by intros [[] _]]|].
  rewrite fill_each_traverse.
  transitivity (is_Ok (traverse
                  (fun o => NewReadableTransactionOutput o (output_txid t))
                  (coin.Transaction.Out (Transaction.Txn t)))).
  - by destruct (traverse _ _).
  - rewrite traverse_is_Ok. split.
    + intros Hall. split; [done|]. eapply Forall_impl; [exact Hall|].
      intros o. by rewrite NewReadableTransactionOutput_is_Ok.
    + intros [_ Hall]. eapply Forall_impl; [exact Hall|].
      intros o. by rewrite NewReadableTransactionOutput_is_Ok.
Qed.

(** X18. [NewReadableTransaction] returns a readable transaction exactly
    when the transaction is not one confirmed in a block other than block 0
    without inputs and the coins of every output encode. Such a transaction
    gets the error of the input check, before any amount is encoded; any
    other error is the error of the amount encoder for one of the outputs.
    Signatures and inputs are never a reason to fail. *)
Theorem NewReadableTransaction_succeeds_iff (t : Transaction.t) :
  let refused :=
    TransactionStatus.BlockSeq (Transaction.Status t) ≠ 0
    ∧ TransactionStatus.Confirmed (Transaction.Status t) = true
    ∧ coin.Transaction.In (Transaction.Txn t) = [] in
  (is_Ok (NewReadableTransaction t)
   ↔ ¬ refused
     ∧ Forall (fun o =>
                 is_Ok (droplet_ToString (coin.TransactionOutput.Coins o)))
         (coin.Transaction.Out (Transaction.Txn t)))
  ∧ (refused →
     NewReadableTransaction t
     = Err (errors_New
         "NewReadableTransaction: Confirmed transaction Status.BlockSeq != 0 but Txn.In is empty"))
  ∧ (¬ refused → ∀ e,
       NewReadableTransaction t = Err e →
       ∃ o, o ∈ coin.Transaction.Out (Transaction.Txn t)
            ∧ droplet_ToString (coin.TransactionOutput.Coins o) = Err e).
Proof.
  intros refused. split; [apply NewReadableTransaction_is_Ok|].
  unfold refused. rewrite <- confirmed_without_inputs.
  unfold NewReadableTransaction.
  destruct (_ && _ && _); split; try done.
  intros _ e. rewrite fill_each_traverse.
  destruct (traverse _ _) as [|e'] eqn:Hout; [done|]. simpl. intros [= ->].
  apply traverse_Err_elem in Hout as (o & Hin & Ho). exists o.
  split; [done|]. unfold NewReadableTransactionOutput in Ho.
  destruct (droplet_ToString _); simpl in Ho; [done|]. by injection Ho as ->.
Qed.

Lemma NewReadableTransaction_fields (t : Transaction.t)
  (r : ReadableTransaction.t) :
  NewReadableTransaction t = Ok r →
  ReadableTransaction.Length r = coin.Transaction.Length (Transaction.Txn t)
  ∧ ReadableTransaction.Type_ r = coin.Transaction.Type_ (Transaction.Txn t)
  ∧ ReadableTransaction.Hash r = Transaction_TxIDHex (Transaction.Txn t)
  ∧ ReadableTransaction.InnerHash r
    = SHA256_Hex (coin.Transaction.InnerHash (Transaction.Txn t))
  ∧ ReadableTransaction.Timestamp r = Transaction.Time t
  ∧ ReadableTransaction.Sigs r
    = Sig_Hex <$> coin.Transaction.Sigs (Transaction.Txn t)
  ∧ ReadableTransaction.In r
    = SHA256_Hex <$> coin.Transaction.In (Transaction.Txn t)
  ∧ traverse (fun o => NewReadableTransactionOutput o (output_txid t))
      (coin.Transaction.Out (Transaction.Txn t))
    = Ok (ReadableTransaction.Out r).
Proof.
  unfold NewReadableTransaction.
  destruct (_ && _ && _); [done|].
  rewrite fill_each_traverse, !assign_each_map.
  destruct (traverse _ _) as [out|]; [simpl|done].
  intros [= <-]. simpl. done.
Qed.

(** X19. The status of a transaction changes its readable form in the
    identifiers of the outputs only, and the time in the timestamp only: two
    readable transactions of the same transaction body agree on length,
    type, id, inner hash, signatures and inputs, and output by output on
    address, coins and hours. *)
Theorem NewReadableTransaction_status_independent (t t' : Transaction.t)
  (r r' : ReadableTransaction.t) :
  Transaction.Txn t = Transaction.Txn t' →
  NewReadableTransaction t = Ok r →
  NewReadableTransaction t' = Ok r' →
  ReadableTransaction.Length r = ReadableTransaction.Length r'
  ∧ ReadableTransaction.Type_ r = ReadableTransaction.Type_ r'
  ∧ ReadableTransaction.Hash r = ReadableTransaction.Hash r'
  ∧ ReadableTransaction.InnerHash r = ReadableTransaction.InnerHash r'
  ∧ ReadableTransaction.Sigs r = ReadableTransaction.Sigs r'
  ∧ ReadableTransaction.In r = ReadableTransaction.In r'
  ∧ Forall2 (fun o o' =>
               ReadableTransactionOutput.Address o
               = ReadableTransactionOutput.Address o'
               ∧ ReadableTransactionOutput.Coins o
                 = ReadableTransactionOutput.Coins o'
               ∧ ReadableTransactionOutput.Hours o
                 = ReadableTransactionOutput.Hours o')
      (ReadableTransaction.Out r) (ReadableTransaction.Out r').
Proof.
  intros Htxn
    (Hl & Hty & Hh & Hi & _ & Hs & Hin & Hout)%NewReadableTransaction_fields
    (Hl' & Hty' & Hh' & Hi' & _ & Hs' & Hin' & Hout')
      %NewReadableTransaction_fields.
  rewrite <- Htxn in *. rewrite Hl, Hl', Hty, Hty', Hh, Hh', Hi, Hi', Hs, Hs',
    Hin, Hin'.
  repeat (split; [done|]).
  apply traverse_Ok_Forall2 in Hout, Hout'.
  revert Hout Hout'.
  generalize (ReadableTransaction.Out r) (ReadableTransaction.Out r').
  generalize (coin.Transaction.Out (Transaction.Txn t)).
  intros outs. induction outs as [|o outs IH]; intros l l' Hl1 Hl2.
  - inversion Hl1; inversion Hl2; subst. constructor.
  - inversion Hl1 as [|? y ? ys Hy Hys]; inversion Hl2 as [|? y' ? ys' Hy' Hys'];
      subst.
    apply NewReadableTransactionOutput_inv in Hy as (Hc & _ & Ha & Hhr).
    apply NewReadableTransactionOutput_inv in Hy' as (Hc' & _ & Ha' & Hhr').
    constructor; [|by apply IH].
    rewrite Ha, Ha', Hhr, Hhr'. split; [done|]. split; [|done]. congruence.
Qed.

Lemma NewReadableBlockBody_traverse (b : Block.t) :
  NewReadableBlockBody b
  = match traverse (fun txn => NewReadableTransaction (block_transaction b txn))
            (BlockBody.Transactions (Block.Body b)) with
    | Ok txns => Ok {| ReadableBlockBody.Transactions := txns |}
    | Err e => Err e
    end.
Proof.
  unfold NewReadableBlockBody. rewrite fill_each_traverse.
  by destruct (traverse _ _).
Qed.

(** X20. [NewReadableBlockBody] returns a body exactly when the coins of
    every output of every transaction of the block encode and, unless the
    block has sequence number 0, every transaction has an input. One
    transaction without inputs makes a block of another sequence number
    unreadable as a whole. *)
Theorem NewReadableBlockBody_succeeds_iff (b : Block.t) :
  is_Ok (NewReadableBlockBody b)
  ↔ Forall (fun txn =>
              (Block_Seq b = 0 ∨ coin.Transaction.In txn ≠ [])
              ∧ Forall (fun o =>
                          is_Ok (droplet_ToString
                                   (coin.TransactionOutput.Coins o)))
                  (coin.Transaction.Out txn))
      (BlockBody.Transactions (Block.Body b)).
Proof.
  rewrite NewReadableBlockBody_traverse.
  transitivity (is_Ok (traverse
                  (fun txn => NewReadableTransaction (block_transaction b txn))
                  (BlockBody.Transactions (Block.Body b)))).
  { by destruct (traverse _ _). }
  rewrite traverse_is_Ok.
  apply Forall_proper; [|done]. intros txn.
  rewrite NewReadableTransaction_is_Ok. simpl.
  destruct (decide (Block_Seq b = 0)) as [Hz|Hnz];
    destruct (decide (coin.Transaction.In txn = [])); intuition congruence.
Qed.

(** X21. In a body [NewReadableBlockBody] returns, the transactions stand in
    the order of the block, each with its content hash as id and no
    timestamp. The identifiers of the outputs are derived from the all-zero
    id for every transaction of a block of sequence number 0, and from the
    content hash of the transaction in every other block. *)
Theorem NewReadableBlockBody_transactions (b : Block.t)
  (body : ReadableBlockBody.t) :
  NewReadableBlockBody b = Ok body →
  Forall2 (fun txn rt =>
             ReadableTransaction.Hash rt = SHA256_Hex (Transaction_Hash txn)
             ∧ ReadableTransaction.Timestamp rt = 0
             ∧ traverse
                 (fun o => NewReadableTransactionOutput o
                             (if Block_Seq b =? 0 then cipher.SHA256_zero
                              else Transaction_Hash txn))
                 (coin.Transaction.Out txn)
               = Ok (ReadableTransaction.Out rt))
    (BlockBody.Transactions (Block.Body b))
    (ReadableBlockBody.Transactions body).
Proof.
  rewrite NewReadableBlockBody_traverse.
  destruct (traverse _ _) as [txns|] eqn:Htxns; [|done].
  intros [= <-]. simpl. apply traverse_Ok_Forall2 in Htxns.
  eapply Forall2_impl; [exact Htxns|]. intros txn rt Hrt. simpl in Hrt.
  apply NewReadableTransaction_fields in Hrt
    as (_ & _ & Hh & _ & Ht & _ & _ & Hout).
  split; [done|]. split; [done|].
  unfold output_txid in Hout. simpl in Hout.
  by destruct (Block_Seq b =? 0).
Qed.

Lemma NewReadableBlock_inv (b : Block.t) (rb : ReadableBlock.t) :
  NewReadableBlock b = Ok rb
  ↔ NewReadableBlockBody b = Ok (ReadableBlock.Body rb)
    ∧ ReadableBlock.Head rb = NewReadableBlockHeader (Block.Head b)
    ∧ ReadableBlock.Size rb = Block_Size b.
Proof.
  unfold NewReadableBlock.
  destruct (NewReadableBlockBody b) as [body|]; simpl.
  - split.
    + by intros [= <-].
    + intros ([= ->] & Hh & Hs). destruct rb. simpl in *. by subst.
  - split; [done|]. by intros [? _].
Qed.

(** X22. [NewReadableBlocks] converts block by block, in order, all or
    nothing: it returns a list exactly when the body of every block
    converts, and then the readable block at each place has that body, the
    readable header of the block at that place and its size. *)
Theorem NewReadableBlocks_pointwise (blocks : list SignedBlock.t)
  (rbs : ReadableBlocks.t) :
  NewReadableBlocks blocks = Ok rbs
  ↔ Forall2 (fun sb rb =>
               NewReadableBlockBody (SignedBlock.Block_ sb)
               = Ok (ReadableBlock.Body rb)
               ∧ ReadableBlock.Head rb
                 = NewReadableBlockHeader
                     (Block.Head (SignedBlock.Block_ sb))
               ∧ ReadableBlockHeader.BkSeq (ReadableBlock.Head rb)
                 = BlockHeader.BkSeq (Block.Head (SignedBlock.Block_ sb))
               ∧ ReadableBlock.Size rb = Block_Size (SignedBlock.Block_ sb))
      blocks (ReadableBlocks.Blocks rbs).
Proof.
  unfold NewReadableBlocks. rewrite append_each_traverse.
  transitivity (traverse (fun b => NewReadableBlock (SignedBlock.Block_ b))
                  blocks = Ok (ReadableBlocks.Blocks rbs)).
  - destruct (traverse _ _) as [l|]; simpl; [|done].
    destruct rbs as [l']. simpl. split; congruence.
  - rewrite traverse_Ok_Forall2.
    split; intros Hall; (eapply Forall2_impl; [exact Hall|]);
      intros sb rb; rewrite NewReadableBlock_inv.
    + intros (Hb & Hh & Hs). rewrite Hh. done.
    + intros (Hb & Hh & _ & Hs). done.
Qed.

Lemma NewReadableUnconfirmedTxn_inv (unconfirmed : UnconfirmedTxn.t)
  (r : ReadableUnconfirmedTxn.t) :
  NewReadableUnconfirmedTxn unconfirmed = Ok r →
  NewReadableTransaction (pool_transaction unconfirmed)
  = Ok (ReadableUnconfirmedTxn.Txn r)
  ∧ ReadableUnconfirmedTxn.IsValid r
    = Z.eqb (UnconfirmedTxn.IsValid unconfirmed) 1.
Proof.
  unfold NewReadableUnconfirmedTxn.
  destruct (NewReadableTransaction _); [|done]. by intros [= <-].
Qed.

(** X23. A pool transaction is never refused for having no inputs:
    [NewReadableUnconfirmedTxn] returns a readable transaction exactly when
    the coins of every output encode. What it returns has the content hash
    as id, no timestamp, the identifiers of the outputs derived from the
    content hash, and is valid exactly when the validity flag is 1. *)
Theorem NewReadableUnconfirmedTxn_succeeds_iff
  (unconfirmed : UnconfirmedTxn.t) :
  (is_Ok (NewReadableUnconfirmedTxn unconfirmed)
   ↔ Forall (fun o => is_Ok (droplet_ToString (coin.TransactionOutput.Coins o)))
       (coin.Transaction.Out (UnconfirmedTxn.Txn unconfirmed)))
  ∧ (∀ r, NewReadableUnconfirmedTxn unconfirmed = Ok r →
       ReadableTransaction.Hash (ReadableUnconfirmedTxn.Txn r)
       = SHA256_Hex (Transaction_Hash (UnconfirmedTxn.Txn unconfirmed))
       ∧ ReadableTransaction.Timestamp (ReadableUnconfirmedTxn.Txn r) = 0
       ∧ traverse
           (fun o => NewReadableTransactionOutput o
                       (Transaction_Hash (UnconfirmedTxn.Txn unconfirmed)))
           (coin.Transaction.Out (UnconfirmedTxn.Txn unconfirmed))
         = Ok (ReadableTransaction.Out (ReadableUnconfirmedTxn.Txn r))
       ∧ (ReadableUnconfirmedTxn.IsValid r = true
          ↔ UnconfirmedTxn.IsValid unconfirmed = 1%Z)).
Proof.
  split.
  - transitivity (is_Ok (NewReadableTransaction (pool_transaction unconfirmed))).
    + unfold NewReadableUnconfirmedTxn.
      by destruct (NewReadableTransaction _).
    + rewrite NewReadableTransaction_is_Ok. simpl. intuition congruence.
  - intros r (Htx & Hvalid)%NewReadableUnconfirmedTxn_inv.
    apply NewReadableTransaction_fields in Htx
      as (_ & _ & Hh & _ & Ht & _ & _ & Hout).
    split; [done|]. split; [done|]. split; [done|].
    rewrite Hvalid. apply Z.eqb_eq.
Qed.

(** X24. [NewReadableUnconfirmedTxns] converts the pool record by record, in
    order, all or nothing, and returns a list exactly when the coins of
    every output of every pool transaction encode. *)
Theorem NewReadableUnconfirmedTxns_pointwise (txs : list UnconfirmedTxn.t) :
  (∀ rut, NewReadableUnconfirmedTxns txs = Ok rut
          ↔ Forall2 (fun tx r => NewReadableUnconfirmedTxn tx = Ok r) txs rut)
  ∧ (is_Ok (NewReadableUnconfirmedTxns txs)
     ↔ Forall (fun tx =>
                 Forall (fun o =>
                           is_Ok (droplet_ToString
                                    (coin.TransactionOutput.Coins o)))
                   (coin.Transaction.Out (UnconfirmedTxn.Txn tx))) txs).
Proof.
  unfold NewReadableUnconfirmedTxns. rewrite fill_each_traverse. split.
  - intros rut. apply traverse_Ok_Forall2.
  - rewrite traverse_is_Ok. apply Forall_proper; [|done]. intros tx.
    transitivity (is_Ok (NewReadableTransaction (pool_transaction tx))).
    + unfold NewReadableUnconfirmedTxn.
      by destruct (NewReadableTransaction _).
    + rewrite NewReadableTransaction_is_Ok. simpl. intuition congruence.
Qed.

(** X25. The JSON form and the readable form of a transaction output are
    returned for the same outputs, those whose coins encode, whatever the
    source transaction and the transaction id; and they agree on address,
    coins and hours. The JSON form reports the source transaction it was
    given. *)
Theorem NewTxOutputJSON_agrees_readable (ux : coin.TransactionOutput.t)
  (srcTx txid : cipher.SHA256) :
  (is_Ok (NewTxOutputJSON ux srcTx)
   ↔ is_Ok (NewReadableTransactionOutput ux txid))
  ∧ (∀ o r,
       NewTxOutputJSON ux srcTx = Ok o →
       NewReadableTransactionOutput ux txid = Ok r →
       TransactionOutputJSON.Address o = ReadableTransactionOutput.Address r
       ∧ TransactionOutputJSON.Coins o = ReadableTransactionOutput.Coins r
       ∧ TransactionOutputJSON.Hours o = ReadableTransactionOutput.Hours r
       ∧ TransactionOutputJSON.SourceTransaction o = SHA256_Hex srcTx).
Proof.
  unfold NewTxOutputJSON, NewReadableTransactionOutput.
  destruct (droplet_ToString _) as [coinStr|]; simpl; [|done].
  split; [done|]. by intros o r [= <-] [= <-].
Qed.

Lemma TransactionJSON_of_inv (tx : coin.Transaction.t) (o : TransactionJSON.t) :
  TransactionJSON_of tx = Ok o →
  TransactionJSON.Hash o = SHA256_Hex (Transaction_Hash tx)
  ∧ TransactionJSON.InnerHash o = SHA256_Hex (coin.Transaction.InnerHash tx)
  ∧ TransactionJSON.Sigs o = Sig_Hex <$> coin.Transaction.Sigs tx
  ∧ TransactionJSON.In o = SHA256_Hex <$> coin.Transaction.In tx
  ∧ traverse (fun y => NewTxOutputJSON y (coin.Transaction.InnerHash tx))
      (coin.Transaction.Out tx)
    = Ok (TransactionJSON.Out o).
Proof.
  unfold TransactionJSON_of. rewrite fill_each_traverse, !assign_each_map.
  destruct (traverse _ _); [|done]. by intros [= <-].
Qed.

(** X26. The text [TransactionToJSON] returns is the encoding of a value
    with the content hash as hash, one output for each output of the
    transaction, in order, and the inner hash of the transaction, not its
    content hash, as the source transaction of every output. *)
Theorem TransactionToJSON_result (tx : coin.Transaction.t) (text : string) :
  TransactionToJSON tx = Ok text →
  ∃ o, json_MarshalIndent o = Ok text
    ∧ TransactionJSON.Hash o = SHA256_Hex (Transaction_Hash tx)
    ∧ TransactionJSON.InnerHash o
      = SHA256_Hex (coin.Transaction.InnerHash tx)
    ∧ TransactionJSON.Sigs o = Sig_Hex <$> coin.Transaction.Sigs tx
    ∧ TransactionJSON.In o = SHA256_Hex <$> coin.Transaction.In tx
    ∧ length (TransactionJSON.Out o) = length (coin.Transaction.Out tx)
    ∧ Forall (fun out =>
                TransactionOutputJSON.SourceTransaction out
                = TransactionJSON.InnerHash o) (TransactionJSON.Out o).
Proof.
  unfold TransactionToJSON.
  destruct (TransactionJSON_of tx) as [o|] eqn:Ho; [simpl|done].
  intros Htext%wrap_Ok. exists o. split; [done|].
  apply TransactionJSON_of_inv in Ho as (Hh & Hi & Hs & Hin & Hout).
  repeat (split; [done|]).
  split; [by apply traverse_Ok_length in Hout|].
  rewrite Hi. apply traverse_Ok_Forall2 in Hout.
  induction Hout as [|y out ys outs Hy _ IH]; constructor; [|done].
  unfold NewTxOutputJSON in Hy.
  destruct (droplet_ToString _); [|done]. by injection Hy as <-.
Qed.

(** X27. An error of [TransactionToJSON] is either the error of the amount
    encoder for one of the outputs, returned as it is, or a new error with
    the message of the JSON encoder behind "serialize TransactionJSON
    failed: ". *)
Theorem TransactionToJSON_error (tx : coin.Transaction.t) (e : error) :
  TransactionToJSON tx = Err e →
  (∃ y, y ∈ coin.Transaction.Out tx
        ∧ droplet_ToString (coin.TransactionOutput.Coins y) = Err e)
  ∨ (∃ o e', TransactionJSON_of tx = Ok o
             ∧ json_MarshalIndent o = Err e'
             ∧ e = errors_New ("serialize TransactionJSON failed: "
                               ++ error_Error e')).
Proof.
  unfold TransactionToJSON.
  destruct (TransactionJSON_of tx) as [o|e0] eqn:Ho; simpl.
  - intros (e' & He' & ->)%wrap_Err. right. by exists o, e'.
  - intros [= ->]. left. unfold TransactionJSON_of in Ho.
    rewrite fill_each_traverse in Ho.
    destruct (traverse _ _) as [|e1] eqn:Hout; [done|].
    injection Ho as ->.
    apply traverse_Err_elem in Hout as (y & Hin & Hy). exists y.
    split; [done|]. unfold NewTxOutputJSON in Hy.
    destruct (droplet_ToString _); simpl in Hy; [done|]. by injection Hy as ->.
Qed.

(** X28. A transaction input and a readable output made of the same unspent
    output at the same time agree wherever both are returned: on hash,
    address, coins, declared hours and calculated hours. An input is
    returned whenever the output is. *)
Theorem NewReadableTransactionInput_agrees_output (ux : coin.UxOut.t)
  (calculateHoursTime : uint64) :
  (is_Ok (NewReadableOutput calculateHoursTime ux) →
   is_Ok (NewReadableTransactionInput ux calculateHoursTime))
  ∧ (∀ inp out,
       NewReadableTransactionInput ux calculateHoursTime = Ok inp →
       NewReadableOutput calculateHoursTime ux = Ok out →
       ReadableTransactionInput.Hash inp = ReadableOutput.Hash out
       ∧ ReadableTransactionInput.Address inp = ReadableOutput.Address out
       ∧ ReadableTransactionInput.Coins inp = ReadableOutput.Coins out
       ∧ ReadableTransactionInput.Hours inp = ReadableOutput.Hours out
       ∧ ReadableTransactionInput.CalculatedHours inp
         = ReadableOutput.CalculatedHours out).
Proof.
  unfold NewReadableTransactionInput, NewReadableOutput.
  destruct (droplet_ToString _) as [coinVal|]; simpl; [|done].
  split; [done|]. intros inp out [= <-].
  destruct (UxOut_CoinHours ux calculateHoursTime) as [hours|e]; simpl.
  - by intros [= <-].
  - destruct (decide (e = ErrAddEarnedCoinHoursAdditionOverflow)); [|done].
    by intros [= <-].
Qed.

(** X29. [NewBlockchainMetadata] never fails. Its counts are the ones
    given, the number of unconfirmed transactions second and the number of
    unspent outputs third, and its head is the readable header that
    [NewReadableBlocks] returns for the same block when it returns one. *)
Theorem NewBlockchainMetadata_head (head : SignedBlock.t)
  (unconfirmedLen unspentsLen : uint64) :
  ∃ m, NewBlockchainMetadata head unconfirmedLen unspentsLen = Ok m
    ∧ BlockchainMetadata.Unconfirmed m = unconfirmedLen
    ∧ BlockchainMetadata.Unspents m = unspentsLen
    ∧ ReadableBlockHeader.BkSeq (BlockchainMetadata.Head m)
      = BlockHeader.BkSeq (Block.Head (SignedBlock.Block_ head))
    ∧ (∀ rbs, NewReadableBlocks [head] = Ok rbs →
         ReadableBlock.Head <$> ReadableBlocks.Blocks rbs
         = [BlockchainMetadata.Head m]).
Proof.
  eexists. split; [reflexivity|]. simpl. repeat (split; [done|]).
  intros rbs. unfold NewReadableBlocks. rewrite append_each_traverse.
  cbn [traverse].
  destruct (NewReadableBlock (SignedBlock.Block_ head)) as [rb|] eqn:Hrb;
    [|done].
  apply NewReadableBlock_inv in Hrb as (_ & Hhead & _).
  simpl. intros [= <-]. simpl. by rewrite Hhead.
Qed.

End Transactions.

(** * The further statements on the reference instance *)

Lemma Sim_droplet_FromString_range (s : string) (v : uint64) :
  Sim.droplet_FromString s = Ok v → v ≤ MaxUint64.
Proof.
  unfold Sim.droplet_FromString.
  destruct (Sim.split_point s) as [whole [frac|]]; [|done].
  destruct (NilEmpty.uint_of_string whole); [|done].
  destruct (NilEmpty.uint_of_string frac); [|done].
  destruct (_ && _); [|done].
  destruct (N.leb_spec (N.of_uint u * 1000000 + N.of_uint u0) MaxInt64)
    as [Hle|]; [|done].
  intros [= <-]. unfold MaxInt64, MaxUint64 in *. lia.
Qed.

Lemma SpendableOutputs_sublist_witness :
  SpendableOutputs SimBlocks.accounts
    `sublist_of` ReadableOutputSet.HeadOutputs SimBlocks.accounts
  ∧ StronglySorted newest_first (SpendableOutputs SimBlocks.accounts)
  ∧ ReadableOutput.Hash SimBlocks.alice2 ≠ ReadableOutput.Hash SimBlocks.bob1.
Proof.
  destruct (SpendableOutputs_sublist SimBlocks.accounts)
    as (Hsub & Hsorted & Hdisjoint).
  split; [exact Hsub|]. split.
  - apply Hsorted. cbv [SimBlocks.accounts ReadableOutputSet.HeadOutputs].
    repeat first
      [ apply SSorted_nil | apply SSorted_cons
      | apply Forall_nil_2 | apply Forall_cons_2
      | right; split; [reflexivity|vm_compute; discriminate] ].
  - apply Hdisjoint.
    + vm_compute. right. left.
    + left.
Defined.

Lemma Balance_Permutation_witness :
  @Balance Sim.collaborators
    [Sim.readable "2.000000" 1; Sim.readable "1.500000" 3]
  = Ok {| wallet.Balance.Coins := 3500000; wallet.Balance.Hours := 4 |}.
Proof.
  apply (@Balance_Permutation Sim.collaborators
           [Sim.readable "1.500000" 3; Sim.readable "2.000000" 1]).
  - apply perm_swap.
  - vm_compute; reflexivity.
Defined.

Lemma Balance_SpendableOutputs_bounded_witness :
  ∃ bal', @Balance Sim.collaborators (SpendableOutputs SimBlocks.accounts)
          = Ok bal'
    ∧ wallet.Balance.Coins bal' ≤ 3750000
    ∧ wallet.Balance.Hours bal' ≤ 9.
Proof.
  apply (@Balance_SpendableOutputs_bounded Sim.collaborators SimBlocks.accounts
           {| wallet.Balance.Coins := 3750000; wallet.Balance.Hours := 9 |}).
  vm_compute; reflexivity.
Defined.

Lemma Balance_ExpectedOutputs_adds_witness :
  @Balance Sim.collaborators (ExpectedOutputs SimBlocks.accounts)
  = Ok {| wallet.Balance.Coins := 5750000; wallet.Balance.Hours := 10 |}.
Proof.
  apply (proj2 (@Balance_ExpectedOutputs_adds Sim.collaborators
                  SimBlocks.accounts _)).
  exists {| wallet.Balance.Coins := 1750000; wallet.Balance.Hours := 8 |},
         {| wallet.Balance.Coins := 4000000; wallet.Balance.Hours := 2 |}.
  repeat split; vm_compute; (reflexivity || discriminate).
Defined.

Lemma AggregateUnspentOutputs_lookup_witness :
  ∃ m, @AggregateUnspentOutputs Sim.collaborators SimBlocks.accounts = Ok m
    ∧ m !! "alice"%string = Some 1750000
    ∧ m !! "bob"%string = Some 2000000
    ∧ m !! "dave"%string = None.
Proof.
  destruct (@AggregateUnspentOutputs Sim.collaborators SimBlocks.accounts)
    as [m|] eqn:Hm; [|vm_compute in Hm; discriminate].
  exists m. split; [reflexivity|].
  pose proof (@AggregateUnspentOutputs_lookup Sim.collaborators
                SimBlocks.accounts m Hm) as Hlookup.
  repeat split; rewrite Hlookup; vm_compute; reflexivity.
Defined.

Lemma AggregateUnspentOutputs_conserves_witness :
  ∃ m, @AggregateUnspentOutputs Sim.collaborators SimBlocks.accounts = Ok m
       ∧ map_total m = 3750000.
Proof.
  apply (proj2 (@AggregateUnspentOutputs_conserves Sim.collaborators
                  SimBlocks.accounts)
           {| wallet.Balance.Coins := 3750000; wallet.Balance.Hours := 9 |}).
  vm_compute; reflexivity.
Defined.

Lemma AggregateUnspentOutputs_succeeds_iff_witness :
  is_Ok (@AggregateUnspentOutputs Sim.collaborators SimBlocks.accounts)
  ∧ ¬ is_Ok (@AggregateUnspentOutputs Sim.collaborators
               (ReadableOutputSet.mk [SimBlocks.alice1; SimBlocks.unreadable]
                  [] [])).
Proof.
  split.
  - apply (proj2 (@AggregateUnspentOutputs_succeeds_iff Sim.collaborators
                    SimBlocks.accounts Sim_droplet_FromString_range)).
    split.
    + repeat constructor.
    + intros addr. unfold address_total.
      cbv [SimBlocks.accounts ReadableOutputSet.HeadOutputs].
      rewrite !filter_cons, filter_nil.
      repeat destruct (decide _); vm_compute; discriminate.
  - intros Hok.
    apply (@AggregateUnspentOutputs_succeeds_iff Sim.collaborators) in Hok
      as [Hall _]; [|exact Sim_droplet_FromString_range].
    apply Forall_cons in Hall as [_ Hall].
    apply Forall_cons in Hall as [Hbad _].
    vm_compute in Hbad. exact Hbad.
Defined.

Lemma ToUxArray_pointwise_witness :
  @ToUxArray Sim.collaborators
    [Sim.plain_readable; SimBlocks.with_coins "many"; Sim.plain_readable]
  = Err (errors_New "can't convert to decimal").
Proof.
  apply (proj2 (proj2 (@ToUxArray_pointwise Sim.collaborators _))
           [Sim.plain_readable] (SimBlocks.with_coins "many")
           [Sim.plain_readable]).
  - reflexivity.
  - vm_compute; exact I.
  - vm_compute; reflexivity.
Defined.

Lemma ToUxArray_ignores_hash_witness :
  @ToUxArray Sim.collaborators [SimBlocks.without_hash] = Ok [Sim.ux_plain].
Proof.
  transitivity (@ToUxArray Sim.collaborators [Sim.plain_readable]).
  - apply (@ToUxArray_ignores_hash Sim.collaborators).
    repeat constructor.
  - vm_compute; reflexivity.
Defined.

Lemma NewReadableOutputs_all_or_nothing_witness :
  @NewReadableOutputs Sim.collaborators 4000
    [Sim.ux_plain; Sim.ux_unencodable; Sim.ux_product]
  = Err (errors_New "Droplet string conversion failed: Value is too large").
Proof.
  apply (proj2 (@NewReadableOutputs_all_or_nothing Sim.collaborators 4000 _)
           [Sim.ux_plain] Sim.ux_unencodable [Sim.ux_product]).
  - reflexivity.
  - repeat constructor.
  - vm_compute; reflexivity.
Defined.

Lemma NewReadableOutputs_ToUxArray_roundtrip_witness :
  ∃ uxs', @ToUxArray Sim.collaborators
            (Sim.sort_Slice output_less Sim.batch_converted) = Ok uxs'
          ∧ uxs' ≡ₚ Sim.batch.
Proof.
  apply (@NewReadableOutputs_ToUxArray_roundtrip Sim.collaborators 4000
           Sim.batch).
  - exact Sim_sort_Slice_contract.
  - vm_compute; reflexivity.
  - intros ux coinStr Hin Hc.
    repeat (apply elem_of_cons in Hin as [->|Hin]);
      try (by apply elem_of_nil in Hin);
      vm_compute in Hc; injection Hc as <-; vm_compute; reflexivity.
  - intros ux Hin.
    repeat (apply elem_of_cons in Hin as [->|Hin]);
      try (by apply elem_of_nil in Hin); vm_compute; reflexivity.
  - intros ux Hin.
    repeat (apply elem_of_cons in Hin as [->|Hin]);
      try (by apply elem_of_nil in Hin); vm_compute; reflexivity.
Defined.

Lemma ReadableOutputsToUxBalances_missing_hash_witness :
  @ReadableOutputsToUxBalances Sim.collaborators SimBlocks.collaborators
    [Sim.plain_readable; SimBlocks.without_hash; Sim.plain_readable]
  = Err (errors_New "ReadableOutput missing hash").
Proof.
  apply (@ReadableOutputsToUxBalances_missing_hash Sim.collaborators
           SimBlocks.collaborators [Sim.plain_readable] [Sim.plain_readable]
           SimBlocks.without_hash).
  - vm_compute; exact I.
  - reflexivity.
Defined.

Lemma ReadableOutputsToUxBalances_error_witness :
  ∃ ro, ro ∈ [Sim.plain_readable; SimBlocks.with_coins "many"]
    ∧ ((ReadableOutput.Hash ro = ""
        ∧ errors_New "ReadableOutput coins is invalid: can't convert to decimal"
          = errors_New "ReadableOutput missing hash")
       ∨ (∃ e', Sim.SHA256FromHex (ReadableOutput.Hash ro) = Err e'
                ∧ errors_New
                    "ReadableOutput coins is invalid: can't convert to decimal"
                  = errors_New ("ReadableOutput hash is invalid: "
                                ++ SimBlocks.error_Error e'))
       ∨ (∃ e', Sim.droplet_FromString (ReadableOutput.Coins ro) = Err e'
                ∧ errors_New
                    "ReadableOutput coins is invalid: can't convert to decimal"
                  = errors_New ("ReadableOutput coins is invalid: "
                                ++ SimBlocks.error_Error e'))
       ∨ (∃ e', Sim.DecodeBase58Address (ReadableOutput.Address ro) = Err e'
                ∧ errors_New
                    "ReadableOutput coins is invalid: can't convert to decimal"
                  = errors_New ("ReadableOutput address is invalid: "
                                ++ SimBlocks.error_Error e'))
       ∨ (∃ e', Sim.SHA256FromHex (ReadableOutput.SourceTransaction ro)
                = Err e'
                ∧ errors_New
                    "ReadableOutput coins is invalid: can't convert to decimal"
                  = errors_New ("ReadableOutput src_tx is invalid: "
                                ++ SimBlocks.error_Error e'))).
Proof.
  apply (@ReadableOutputsToUxBalances_error Sim.collaborators
           SimBlocks.collaborators
           [Sim.plain_readable; SimBlocks.with_coins "many"]).
  vm_compute; reflexivity.
Defined.

Lemma ReadableOutputsToUxBalances_agrees_ToUxArray_witness :
  ∃ uxb uxs,
    @ReadableOutputsToUxBalances Sim.collaborators SimBlocks.collaborators
      Sim.batch_converted = Ok uxb
    ∧ @ToUxArray Sim.collaborators Sim.batch_converted = Ok uxs
    ∧ UxBalance.Coins <$> uxb
      = (fun ux => coin.UxBody.Coins (coin.UxOut.Body ux)) <$> uxs.
Proof.
  destruct (@ReadableOutputsToUxBalances Sim.collaborators
              SimBlocks.collaborators Sim.batch_converted)
    as [uxb|] eqn:Huxb; [|vm_compute in Huxb; discriminate].
  destruct (@ReadableOutputsToUxBalances_agrees_ToUxArray Sim.collaborators
              SimBlocks.collaborators Sim.batch_converted uxb Huxb)
    as (uxs & Huxs & Hagree & _).
  exists uxb, uxs. split; [reflexivity|]. split; [exact Huxs|].
  clear Huxb Huxs. induction Hagree as [|b ux uxb uxs Hb _ IH]; [reflexivity|].
  rewrite !fmap_cons. f_equal; [apply Hb|exact IH].
Defined.

Lemma NewReadableOutput_ToUxBalance_roundtrip_witness :
  @ReadableOutputsToUxBalances Sim.collaborators SimBlocks.collaborators
    [Sim.plain_readable]
  = Ok [ {| UxBalance.Hash := Sim.UxOut_Hash Sim.ux_plain;
            UxBalance.Time := 100;
            UxBalance.BkSeq := 5;
            UxBalance.SrcTransaction := Sim.digest 5;
            UxBalance.Address := Sim.address;
            UxBalance.Coins := 1500000;
            UxBalance.Hours :=
              ReadableOutput.CalculatedHours Sim.plain_readable;
            UxBalance.InitialHours := 7 |} ].
Proof.
  apply (@NewReadableOutput_ToUxBalance_roundtrip Sim.collaborators
           SimBlocks.collaborators 4000 Sim.ux_plain Sim.plain_readable).
  - vm_compute; reflexivity.
  - vm_compute; discriminate.
  - vm_compute; reflexivity.
  - intros coinStr Hc. vm_compute in Hc. injection Hc as <-.
    vm_compute; reflexivity.
  - vm_compute; reflexivity.
  - vm_compute; reflexivity.
Defined.

Lemma TransactionStatus_exclusive_witness :
  TransactionStatus.Confirmed (TransactionStatus.mk true false 3 7)
  = negb (TransactionStatus.Unconfirmed (TransactionStatus.mk true false 3 7))
  ∧ (TransactionStatus.Unconfirmed (TransactionStatus.mk true false 3 7) = true
     ↔ TransactionStatus.Height (TransactionStatus.mk true false 3 7) = 0).
Proof.
  apply (TransactionStatus_exclusive (TransactionStatus.mk true false 3 7)).
  right. exists 3, 7. reflexivity.
Defined.

Lemma NewReadableTransaction_succeeds_iff_witness :
  is_Ok (@NewReadableTransaction Sim.collaborators Sim.genesis)
  ∧ @NewReadableTransaction Sim.collaborators Sim.confirmed_later
    = Err (errors_New
        "NewReadableTransaction: Confirmed transaction Status.BlockSeq != 0 but Txn.In is empty").
Proof.
  split.
  - apply (proj2 (proj1 (@NewReadableTransaction_succeeds_iff
                           Sim.collaborators Sim.genesis))).
    split.
    + intros (Hseq & _). by apply Hseq.
    + repeat constructor.
  - apply (proj1 (proj2 (@NewReadableTransaction_succeeds_iff
                           Sim.collaborators Sim.confirmed_later))).
    split; [discriminate|]. split; reflexivity.
Defined.

Lemma NewReadableTransaction_status_independent_witness :
  ReadableTransaction.Hash Sim.genesis_readable
  = ReadableTransaction.Hash Sim.pending_readable
  ∧ Forall2 (fun o o' =>
               ReadableTransactionOutput.Address o
               = ReadableTransactionOutput.Address o'
               ∧ ReadableTransactionOutput.Coins o
                 = ReadableTransactionOutput.Coins o'
               ∧ ReadableTransactionOutput.Hours o
                 = ReadableTransactionOutput.Hours o')
      (ReadableTransaction.Out Sim.genesis_readable)
      (ReadableTransaction.Out Sim.pending_readable).
Proof.
  destruct (@NewReadableTransaction_status_independent Sim.collaborators
              Sim.genesis Sim.pending
              Sim.genesis_readable Sim.pending_readable)
    as (_ & _ & Hhash & _ & _ & _ & Hout);
    [reflexivity|vm_compute; reflexivity|vm_compute; reflexivity|].
  split; [exact Hhash|exact Hout].
Defined.

Lemma NewReadableBlockBody_succeeds_iff_witness :
  is_Ok (@NewReadableBlockBody Sim.collaborators SimBlocks.collaborators
           (SimBlocks.block 0 [Sim.txn; SimBlocks.spend]))
  ∧ ¬ is_Ok (@NewReadableBlockBody Sim.collaborators SimBlocks.collaborators
               (SimBlocks.block 3 [SimBlocks.spend; Sim.txn])).
Proof.
  split.
  - apply (proj2 (@NewReadableBlockBody_succeeds_iff Sim.collaborators
                    SimBlocks.collaborators _)).
    repeat constructor; by left.
  - intros Hok.
    apply (proj1 (@NewReadableBlockBody_succeeds_iff Sim.collaborators
                    SimBlocks.collaborators _)) in Hok.
    apply Forall_cons in Hok as [_ Hok].
    apply Forall_cons in Hok as [[[Hseq|Hin] _] _].
    + vm_compute in Hseq. discriminate.
    + by apply Hin.
Defined.

Lemma NewReadableBlockBody_transactions_witness :
  ∃ body,
    @NewReadableBlockBody Sim.collaborators SimBlocks.collaborators
      (SimBlocks.block 0 [Sim.txn]) = Ok body
    ∧ ReadableBlockBody.Transactions body = [Sim.genesis_readable].
Proof.
  destruct (@NewReadableBlockBody Sim.collaborators SimBlocks.collaborators
              (SimBlocks.block 0 [Sim.txn]))
    as [body|] eqn:Hbody; [|vm_compute in Hbody; discriminate].
  exists body. split; [reflexivity|].
  pose proof (@NewReadableBlockBody_transactions Sim.collaborators
                SimBlocks.collaborators _ body Hbody) as Hall.
  vm_compute in Hbody. injection Hbody as <-. vm_compute. reflexivity.
Defined.

Lemma NewReadableBlocks_pointwise_witness :
  ∃ rbs,
    @NewReadableBlocks Sim.collaborators SimBlocks.collaborators
      [SimBlocks.signed (SimBlocks.block 0 [Sim.txn]);
       SimBlocks.signed (SimBlocks.block 1 [SimBlocks.spend])] = Ok rbs
    ∧ (fun rb => ReadableBlockHeader.BkSeq (ReadableBlock.Head rb))
      <$> ReadableBlocks.Blocks rbs = [0; 1].
Proof.
  destruct (@NewReadableBlocks Sim.collaborators SimBlocks.collaborators
              [SimBlocks.signed (SimBlocks.block 0 [Sim.txn]);
               SimBlocks.signed (SimBlocks.block 1 [SimBlocks.spend])])
    as [rbs|] eqn:Hrbs; [|vm_compute in Hrbs; discriminate].
  exists rbs. split; [reflexivity|].
  apply (proj1 (@NewReadableBlocks_pointwise Sim.collaborators
                  SimBlocks.collaborators _ rbs)) in Hrbs.
  apply Forall2_cons_inv_l in Hrbs as (rb0 & l0 & (_ & _ & Hs0 & _) & Hrest & ->).
  apply Forall2_cons_inv_l in Hrest
    as (rb1 & l1 & (_ & _ & Hs1 & _) & Hnil & ->).
  apply Forall2_nil_inv_l in Hnil as ->.
  rewrite !fmap_cons, Hs0, Hs1. reflexivity.
Defined.

Lemma NewReadableUnconfirmedTxn_succeeds_iff_witness :
  is_Ok (@NewReadableUnconfirmedTxn Sim.collaborators SimBlocks.collaborators
           (SimBlocks.pool Sim.txn 1)).
Proof.
  apply (proj2 (proj1 (@NewReadableUnconfirmedTxn_succeeds_iff
                         Sim.collaborators SimBlocks.collaborators
                         (SimBlocks.pool Sim.txn 1)))).
  repeat constructor.
Defined.

Lemma NewReadableUnconfirmedTxns_pointwise_witness :
  is_Ok (@NewReadableUnconfirmedTxns Sim.collaborators SimBlocks.collaborators
           [SimBlocks.pool Sim.txn 1; SimBlocks.pool SimBlocks.spend 0]).
Proof.
  apply (proj2 (proj2 (@NewReadableUnconfirmedTxns_pointwise
                         Sim.collaborators SimBlocks.collaborators _))).
  repeat constructor.
Defined.

Lemma NewTxOutputJSON_agrees_readable_witness :
  is_Ok (@NewTxOutputJSON Sim.collaborators
           (coin.TransactionOutput.mk Sim.address 2000000 4) (Sim.digest 2)).
Proof.
  apply (proj2 (proj1 (@NewTxOutputJSON_agrees_readable Sim.collaborators
                         (coin.TransactionOutput.mk Sim.address 2000000 4)
                         (Sim.digest 2) cipher.SHA256_zero))).
  vm_compute; exact I.
Defined.

Lemma TransactionToJSON_result_witness :
  ∃ text o,
    @TransactionToJSON Sim.collaborators SimBlocks.collaborators
      SimBlocks.spend = Ok text
    ∧ SimBlocks.json_MarshalIndent o = Ok text
    ∧ length (TransactionJSON.Out o) = 2%nat
    ∧ Forall (fun out =>
                TransactionOutputJSON.SourceTransaction out
                = TransactionJSON.InnerHash o) (TransactionJSON.Out o).
Proof.
  destruct (@TransactionToJSON Sim.collaborators SimBlocks.collaborators
              SimBlocks.spend)
    as [text|] eqn:Htext; [|vm_compute in Htext; discriminate].
  destruct (@TransactionToJSON_result Sim.collaborators
              SimBlocks.collaborators SimBlocks.spend text Htext)
    as (o & Ho & _ & _ & _ & _ & Hlen & Hsrc).
  exists text, o. split; [reflexivity|]. split; [exact Ho|].
  split; [exact Hlen|exact Hsrc].
Defined.

Lemma TransactionToJSON_error_witness :
  (∃ y, y ∈ coin.Transaction.Out SimBlocks.unencodable
        ∧ Sim.droplet_ToString (coin.TransactionOutput.Coins y)
          = Err (errors_New
                   "Droplet string conversion failed: Value is too large"))
  ∨ (∃ o e', @TransactionJSON_of Sim.collaborators SimBlocks.unencodable = Ok o
             ∧ SimBlocks.json_MarshalIndent o = Err e'
             ∧ errors_New "Droplet string conversion failed: Value is too large"
               = errors_New ("serialize TransactionJSON failed: "
                             ++ SimBlocks.error_Error e')).
Proof.
  apply (@TransactionToJSON_error Sim.collaborators SimBlocks.collaborators
           SimBlocks.unencodable).
  vm_compute; reflexivity.
Defined.

Lemma NewReadableTransactionInput_agrees_output_witness :
  is_Ok (@NewReadableTransactionInput Sim.collaborators Sim.ux_overflow 101).
Proof.
  apply (proj1 (@NewReadableTransactionInput_agrees_output Sim.collaborators
                  Sim.ux_overflow 101)).
  vm_compute; exact I.
Defined.

Lemma NewBlockchainMetadata_head_witness :
  ∃ m, @NewBlockchainMetadata Sim.collaborators SimBlocks.collaborators
         (SimBlocks.signed (SimBlocks.block 3 [SimBlocks.spend])) 2 40 = Ok m
    ∧ BlockchainMetadata.Unconfirmed m = 2
    ∧ BlockchainMetadata.Unspents m = 40
    ∧ ReadableBlockHeader.BkSeq (BlockchainMetadata.Head m) = 3.
Proof.
  destruct (@NewBlockchainMetadata_head Sim.collaborators
              SimBlocks.collaborators
              (SimBlocks.signed (SimBlocks.block 3 [SimBlocks.spend])) 2 40)
    as (m & Hm & Hu & Hn & Hseq & _).
  exists m. split; [exact Hm|]. split; [exact Hu|]. split; [exact Hn|].
  exact Hseq.
Defined.
